(** * promtail: label utilities and the Loki JSON v1 exchanger

    A shallow embedding of [shared.go] and [exchanger.go].

    - Go maps are reference values, so [shared.go] is modelled over a heap of
      maps ([Shared]): a map value is a reference (or nil), [make] allocates,
      an indexed assignment updates the heap cell.
    - The stream transformer of [exchanger.go] is a pure function of its
      argument; [Push] and [Ping] talk to the JSON encoder, the gzip writer,
      the URL parser and the HTTP transport, which are gathered in a record of
      environment functions ([Exchanger.Env]). *)

From Stdlib Require Import ZArith Lia Ascii String Strings.Byte.
From stdpp Require Import base gmap strings list fin_maps.

Local Open Scope string_scope.
Local Open Scope list_scope.
Local Open Scope Z_scope.

(* ===================================================================== *)
(** ** shared.go *)
(* ===================================================================== *)

Module Shared.

(** A heap location holding a [map[string]string]. *)
Definition loc := positive.

(** A Go value of type [map[string]string]: nil or a reference. *)
Definition mapref := option loc.

(** The heap of maps. *)
Abbreviation heap := (gmap loc (gmap string string)).

(** The content a map value denotes; reading a nil map behaves like reading
    an empty one. *)
Definition deref (h : heap) (r : mapref) : gmap string string :=
  match r with
  | None => ∅
  | Some l => default ∅ (h !! l)
  end.

(** [len(m)] *)
Definition len (h : heap) (r : mapref) : Z := Z.of_nat (size (deref h r)).

(** [m[key]] in an expression: the zero value when the key is missing. *)
Definition index (h : heap) (r : mapref) (key : string) : string :=
  default "" (deref h r !! key).

(** [make(map[string]string, hint)]: a new cell; the hint only pre-sizes. *)
Definition make (hint : Z) (h : heap) : loc * heap :=
  let l := fresh (dom h) in (l, <[l := ∅]> h).

(** [dst[key] = v] for a non-nil [dst]. *)
Definition store (dst : loc) (key v : string) (h : heap) : heap :=
  <[dst := <[key := v]> (default ∅ (h !! dst))]> h.

Section Range.

(** The order in which [for key := range m] visits the keys of [m]; Go leaves
    it unspecified. *)
Variable range_keys : gmap string string → list string.

(** First loop: [predictedLength += len(srcs[i])]. *)
Definition predictedLength (srcs : list mapref) (h : heap) : Z :=
  fold_left (λ n src, n + len h src) srcs 0.

(** Inner loop: [for key := range srcs[i] { dst[key] = srcs[i][key] }]. *)
Definition merge_one (dst : loc) (src : mapref) (h : heap) : heap :=
  fold_left (λ h key, store dst key (index h src key) h)
            (range_keys (deref h src)) h.

(** [[
  func copyAndMergeLabels(srcs ...map[string]string) map[string]string {
      predictedLength := 0
      for i := range srcs { predictedLength += len(srcs[i]) }
      dst := make(map[string]string, predictedLength)
      for i := range srcs {
          for key := range srcs[i] { dst[key] = srcs[i][key] }
      }
      return dst
  }
]] *)
Definition copyAndMergeLabels (srcs : list mapref) (h : heap) : loc * heap :=
  let '(dst, h1) := make (predictedLength srcs h) h in
  (dst, fold_left (λ h src, merge_one dst src h) srcs h1).

End Range.

(** The inner loop seen on the contents alone: the keys [keys] of [m] are
    written to [acc]. *)
Definition copy_keys (m : gmap string string) (keys : list string)
    (acc : gmap string string) : gmap string string :=
  fold_left (λ a key, <[key := default "" (m !! key)]> a) keys acc.

(** One admissible iteration order: the order of [map_to_list]. *)
Definition range_in_map_order (m : gmap string string) : list string :=
  (map_to_list m).*1.

(** The spec's reading of last-write-wins: [v] is what the last of the
    mappings [ms] that has [key] holds for it. *)
Definition from_last_source (ms : list (gmap string string))
    (key v : string) : Prop :=
  ∃ i m, ms !! i = Some m ∧ m !! key = Some v ∧
         ∀ j m', (i < j)%nat → ms !! j = Some m' → m' !! key = None.

(** The spec's reading of the left-to-right union: later mappings override
    earlier ones. *)
Definition union_left_to_right (ms : list (gmap string string))
    : gmap string string :=
  fold_left (λ acc m, m ∪ acc) ms ∅.

End Shared.

(* ===================================================================== *)
(** ** Go standard library functions the exchanger calls *)
(* ===================================================================== *)

Module Go.

(** Go's [error]: the message of a non-nil error; [None] is the nil error. *)
Definition error := option string.

(** Two's-complement views of an integer: [int64(x)] and [uint64(x)]. *)
Definition wrap64 (x : Z) : Z := (x + 2 ^ 63) mod 2 ^ 64 - 2 ^ 63.
Definition wrapu64 (x : Z) : Z := x mod 2 ^ 64.

(** [time.Time], as the instant it denotes: whole seconds since the Unix
    epoch ([t.Unix()]) and the nanoseconds within that second
    ([t.Nanosecond()], in [0, 999999999]). *)
Record Time := { unixSec : Z; nsec : Z }.

(** [time.Time{}]: January 1, year 1, 00:00:00 UTC. *)
Definition zeroTime : Time := {| unixSec := -62135596800; nsec := 0 |}.

(** [func (t Time) UnixNano() int64 { return (t.unixSec())*1e9 + int64(t.nsec()) }]
    in [int64] arithmetic: silently wraps outside the years 1678..2262. *)
Definition UnixNano (t : Time) : Z :=
  wrap64 (unixSec t * 1000000000 + nsec t).

(** [strconv]: [const digits = "0123456789abcdefghijklmnopqrstuvwxyz"]. *)
Definition digits : string := "0123456789abcdefghijklmnopqrstuvwxyz".

(** [digits[d]] *)
Definition digit (d : Z) : ascii :=
  default "0"%char (String.get (Z.to_nat d) digits).

(** The digit loop of [strconv.formatBits], writing right to left into [a]:
[[
  for u >= b { i--; q := u / b; a[i] = digits[uint(u-q*b)]; u = q }
  i--; a[i] = digits[uint(u)]
]]
    [fuel] is the size of the buffer, [var a [64 + 1]byte]. *)
Fixpoint formatBits_loop (fuel : nat) (u b : Z) (a : string) : string :=
  match fuel with
  | O => a
  | S fuel' =>
      if b <=? u then
        let q := u / b in
        formatBits_loop fuel' q b (String (digit (u - q * b)) a)
      else String (digit u) a
  end.

(** [strconv.formatBits(nil, u, base, neg, false)] *)
Definition formatBits (u : Z) (base : Z) (neg : bool) : string :=
  let u := if neg then wrapu64 (- u) else u in
  let a := formatBits_loop 65 u base "" in
  if neg then String "-"%char a else a.

(** [strconv.FormatInt(i, base)]; the table lookup Go takes for
    [0 <= i < 100] in base 10 returns the same digits. *)
Definition FormatInt (i : Z) (base : Z) : string :=
  formatBits (wrapu64 i) base (i <? 0).

(** [base64.StdEncoding]'s alphabet. *)
Definition encodeStd : string :=
  "ABCDEFGHIJKLMNOPQRSTUVWXYZabcdefghijklmnopqrstuvwxyz0123456789+/".

Definition encodeStd_at (v : Z) : ascii :=
  default "="%char (String.get (Z.to_nat (Z.land v 63)) encodeStd).

Definition byteval (c : ascii) : Z := Z.of_nat (nat_of_ascii c).

(** [base64.StdEncoding.EncodeToString]: three bytes become four characters,
    the remainder is padded with ['=']. *)
Fixpoint EncodeToString (src : string) : string :=
  match src with
  | String a (String b (String c rest)) =>
      let val := Z.lor (Z.lor (Z.shiftl (byteval a) 16)
                              (Z.shiftl (byteval b) 8)) (byteval c) in
      String (encodeStd_at (Z.shiftr val 18))
        (String (encodeStd_at (Z.shiftr val 12))
          (String (encodeStd_at (Z.shiftr val 6))
            (String (encodeStd_at val) (EncodeToString rest))))
  | String a (String b "") =>
      let val := Z.lor (Z.shiftl (byteval a) 16) (Z.shiftl (byteval b) 8) in
      String (encodeStd_at (Z.shiftr val 18))
        (String (encodeStd_at (Z.shiftr val 12))
          (String (encodeStd_at (Z.shiftr val 6)) "="))
  | String a "" =>
      let val := Z.shiftl (byteval a) 16 in
      String (encodeStd_at (Z.shiftr val 18))
        (String (encodeStd_at (Z.shiftr val 12)) "==")
  | "" => ""
  end.

(** [net/http]: [basicAuth(username, password)] *)
Definition basicAuth (username password : string) : string :=
  EncodeToString (username ++ ":" ++ password)%string.

(** An [io.Reader]: the chunks it delivers, ended by [io.EOF] or by an
    error. *)
Inductive Reader :=
| EOF
| ReadErr (e : string)
| Chunk (data : list byte) (rest : Reader).

(** [io.ReadAll]: what was read up to the end or the error, and the error. *)
Fixpoint ReadAll (r : Reader) : list byte * error :=
  match r with
  | EOF => ([], None)
  | ReadErr e => ([], Some e)
  | Chunk data rest => let '(b, err) := ReadAll rest in (data ++ b, err)
  end.

(** Everything the reader holds. *)
Fixpoint content (r : Reader) : list byte :=
  match r with
  | Chunk data rest => data ++ content rest
  | _ => []
  end.

(** [http.Header]: [map[string][]string]; the keys used here are already in
    canonical form. *)
Abbreviation http_Header := (gmap string (list string)).

Definition Header_Add (key value : string) (h : http_Header) : http_Header :=
  <[key := default [] (h !! key) ++ [value]]> h.

Definition Header_Set (key value : string) (h : http_Header) : http_Header :=
  <[key := [value]]> h.

(** [http.Request], the fields the exchanger sets. *)
Record Request := {
  Method : string;
  URL : string;
  Header : http_Header;
  Body : option (list byte)
}.

(** [http.Response], the fields the exchanger reads. *)
Record Response := {
  StatusCode : Z;
  RespBody : Reader
}.

(** [req.Header.Add(key, value)] *)
Definition Request_Header_Add (key value : string) (req : Request) : Request :=
  {| Method := Method req; URL := URL req;
     Header := Header_Add key value (Header req); Body := Body req |}.

(** [req.SetBasicAuth(username, password)] *)
Definition Request_SetBasicAuth (username password : string) (req : Request)
    : Request :=
  {| Method := Method req; URL := URL req;
     Header := Header_Set "Authorization"
              ("Basic " ++ basicAuth username password)%string (Header req);
     Body := Body req |}.

End Go.

(* ===================================================================== *)
(** ** exchanger.go *)
(* ===================================================================== *)

Module Exchanger.
Import Go.

(** [type Level uint8] *)
Definition Level := Z.

(** [[
  type LogEntry struct {
      Labels    map[string]string
      Level     Level
      Timestamp time.Time
      LogLine   []byte
  }
]] *)
Record LogEntry := {
  EntryLabels : Shared.mapref;
  EntryLevel : Level;
  Timestamp : Time;
  LogLine : list byte
}.

(** [[
  type LogStream struct {
      Level   Level
      Labels  map[string]string
      Entries []*LogEntry
  }
]]
    A [*LogEntry] is [None] when nil.  Of the slice [Entries] only [len] and
    the elements are read, so a nil slice and an empty one are both [[]]. *)
Record LogStream := {
  StreamLevel : Level;
  Labels : Shared.mapref;
  Entries : list (option LogEntry)
}.

(** [[
  lokiDTOJsonV1Stream struct {
      Stream map[string]string `json:"stream"`
      Values [][2]string       `json:"values"`
  }
]] *)
Record lokiDTOJsonV1Stream := {
  Stream : Shared.mapref;
  Values : list (string * string)
}.

(** [[
  lokiDTOJsonV1PushRequest struct {
      Streams []*lokiDTOJsonV1Stream `json:"streams"`
  }
]]
    Every pointer the transformer stores in [Streams] is the address of a
    fresh struct, hence never nil. *)
Record lokiDTOJsonV1PushRequest := {
  Streams : list lokiDTOJsonV1Stream
}.

(** [type PongResponse struct { IsReady bool }] *)
Record PongResponse := { IsReady : bool }.

(** [lokiJsonV1Exchanger]; its [restClient] is the transport of [Env]. *)
Record lokiJsonV1Exchanger := {
  useGzipCompression : bool;
  lokiAddress : string;
  username : string;
  password : string
}.

Definition NewJSONv1Exchanger (lokiAddress : string) (useGzipCompression : bool)
    : lokiJsonV1Exchanger :=
  {| useGzipCompression := useGzipCompression; lokiAddress := lokiAddress;
     username := ""; password := "" |}.

(** What [Push] and [Ping] call outside this package. *)
Record Env := {
  (** [json.NewEncoder(w).Encode(v)]: the bytes handed to [w], and the error *)
  json_Encode : option lokiDTOJsonV1PushRequest → list byte * error;
  (** a [gzip.Writer] over the buffer: what the buffer holds once the bytes
      were written and the writer closed, and the error of [Close] *)
  gzip_Writer : list byte → list byte * error;
  (** [http.NewRequest(method, url, body)]: the error, if the URL is refused *)
  http_NewRequest : string → string → error;
  (** [restClient.Do(req)]: a response or an error (which includes the expiry
      of the request's deadline) *)
  restClient_Do : Request → Response + string
}.

(** [[
  func (rcv *lokiJsonV1Exchanger) isSuccessHTTPCode(code int) bool {
      return 199 < code && code < 300
  }
]] *)
Definition isSuccessHTTPCode (rcv : lokiJsonV1Exchanger) (code : Z) : bool :=
  (199 <? code) && (code <? 300).

(** The body of the inner loop over [streams[i].Entries]:
[[
  if streams[i].Entries[j] == nil { continue }
  lokiStream.Values = append(lokiStream.Values, [2]string{
      strconv.FormatInt(streams[i].Entries[j].Timestamp.UnixNano(), 10),
      string(streams[i].Entries[j].LogLine),
  })
]] *)
Definition append_entry (values : list (string * string))
    (entry : option LogEntry) : list (string * string) :=
  match entry with
  | None => values
  | Some e =>
      values ++ [(FormatInt (UnixNano (Timestamp e)) 10,
                  string_of_list_byte (LogLine e))]
  end.

(** The body of the outer loop over [streams]:
[[
  if streams[i] == nil || len(streams[i].Entries) == 0 { continue }
  lokiStream := &lokiDTOJsonV1Stream{
      Stream: streams[i].Labels,
      Values: make([][2]string, 0, len(streams[i].Entries)),
  }
  for j := range streams[i].Entries { ... }
  pushRequest.Streams = append(pushRequest.Streams, lokiStream)
]] *)
Definition append_stream (out : list lokiDTOJsonV1Stream)
    (stream : option LogStream) : list lokiDTOJsonV1Stream :=
  match stream with
  | None => out
  | Some s =>
      if Z.of_nat (List.length (Entries s)) =? 0 then out
      else
        out ++ [{| Stream := Labels s;
                   Values := fold_left append_entry (Entries s) [] |}]
  end.

(** [func (rcv *lokiJsonV1Exchanger) transformLogStreamsToDTO(streams []*LogStream) *lokiDTOJsonV1PushRequest]:
    a nil slice is [None], a nil result is [None]. *)
Definition transformLogStreamsToDTO (rcv : lokiJsonV1Exchanger)
    (streams : option (list (option LogStream)))
    : option lokiDTOJsonV1PushRequest :=
  match streams with
  | None => None
  | Some streams => Some {| Streams := fold_left append_stream streams [] |}
  end.

(** [[
  func (rcv *lokiJsonV1Exchanger) SetBasicAuth(username, password string) {
      rcv.username = username
      rcv.password = password
  }
]] *)
Definition SetBasicAuth (username password : string)
    (rcv : lokiJsonV1Exchanger) : lokiJsonV1Exchanger :=
  {| useGzipCompression := useGzipCompression rcv;
     lokiAddress := lokiAddress rcv;
     username := username; password := password |}.

(** The function literal at the head of [Push]: fills [buf] and returns an
    error.
[[
  func() error {
      var w io.Writer = &buf
      if rcv.useGzipCompression {
          gw := gzip.NewWriter(&buf)
          defer gw.Close()
          w = gw
      }
      if err := json.NewEncoder(w).Encode(rcv.transformLogStreamsToDTO(streams)); err != nil {
          return fmt.Errorf("failed to encode streams message: %s", err)
      }
      return nil
  }
]]
    The deferred [gw.Close()] runs on both paths and its error is dropped. *)
Definition Push_encode (env : Env) (rcv : lokiJsonV1Exchanger)
    (streams : option (list (option LogStream))) : list byte * error :=
  let '(written, err) :=
    json_Encode env (transformLogStreamsToDTO rcv streams) in
  let buf :=
    if useGzipCompression rcv then fst (gzip_Writer env written)
    else written in
  match err with
  | Some e => (buf, Some ("failed to encode streams message: " ++ e)%string)
  | None => (buf, None)
  end.

Definition nonempty (s : string) : bool := negb (String.eqb s "").

(** [func (rcv *lokiJsonV1Exchanger) Push(streams []*LogStream) error]:
    the requests handed to the transport, and the returned error.  The
    function literal is called as a statement, [func() error { ... }()]: its
    result is not bound.  In [fmt.Errorf], [%s] prints an error or a string
    as it is and [%d] prints the status code as [FormatInt] does in base
    10. *)
Definition Push (env : Env) (rcv : lokiJsonV1Exchanger)
    (streams : option (list (option LogStream))) : list Request * error :=
  let '(buf, _) := Push_encode env rcv streams in
  let url := (lokiAddress rcv ++ "/loki/api/v1/push")%string in
  match http_NewRequest env "POST" url with
  | Some err => ([], Some ("failed to create request: " ++ err)%string)
  | None =>
      let req := {| Method := "POST"; URL := url; Header := ∅;
                    Body := Some buf |} in
      let req := Request_Header_Add "Content-Type" "application/json" req in
      let req :=
        if useGzipCompression rcv
        then Request_Header_Add "Content-Encoding" "gzip" req else req in
      let req :=
        if nonempty (username rcv) && nonempty (password rcv)
        then Request_SetBasicAuth (username rcv) (password rcv) req
        else req in
      match restClient_Do env req with
      | inr err =>
          ([req], Some ("failed to send push message: " ++ err)%string)
      | inl resp =>
          if negb (isSuccessHTTPCode rcv (StatusCode resp)) then
            let '(messageBody, _) := ReadAll (RespBody resp) in
            ([req],
             Some ("unexpected response code [code="
                   ++ FormatInt (StatusCode resp) 10 ++ "], message: "
                   ++ string_of_list_byte messageBody)%string)
          else ([req], None)
      end
  end.

(** [Ping], of result type [*PongResponse, error]: the requests handed to
    the transport, and the returned pair ([None] for a nil pointer).  The request
    carries a deadline of [requestTimeout]; its expiry is one of the errors
    of the transport. *)
Definition Ping (env : Env) (rcv : lokiJsonV1Exchanger)
    : list Request * (option PongResponse * error) :=
  let url := (lokiAddress rcv ++ "/ready")%string in
  match http_NewRequest env "GET" url with
  | Some err =>
      ([], (None, Some ("unable to build ping request: " ++ err)%string))
  | None =>
      let pingRequest := {| Method := "GET"; URL := url; Header := ∅;
                            Body := None |} in
      match restClient_Do env pingRequest with
      | inr err =>
          ([pingRequest],
           (None, Some ("pong is not received: " ++ err)%string))
      | inl resp =>
          let pong := {| IsReady := false |} in
          let pong :=
            if isSuccessHTTPCode rcv (StatusCode resp)
            then {| IsReady := true |} else pong in
          ([pingRequest], (Some pong, None))
      end
  end.

End Exchanger.

(* ===================================================================== *)
(** ** The specification's vocabulary *)
(* ===================================================================== *)

Module Spec.
Import Go Exchanger.

(** Nanoseconds since the Unix epoch of an instant, as a mathematical
    integer. *)
Definition nanos_since_epoch (t : Time) : Z :=
  unixSec t * 1000000000 + nsec t.

(** The instants whose nanosecond count is an [int64]:
    1677-09-21T00:12:43.145224192Z to 2262-04-11T23:47:16.854775807Z. *)
Definition fits_int64 (n : Z) : Prop := - 2 ^ 63 ≤ n < 2 ^ 63.

(** The Unix epoch and the instant one nanosecond later. *)
Definition epoch : Time := {| unixSec := 0; nsec := 0 |}.
Definition epoch_plus_1ns : Time := {| unixSec := 0; nsec := 1 |}.

(** Reading a base-10 numeral. *)
Definition digit_value (c : ascii) : option Z :=
  let n := Z.of_nat (nat_of_ascii c) in
  if (48 <=? n) && (n <=? 57) then Some (n - 48) else None.

Fixpoint parse_digits (s : string) (acc : Z) : option Z :=
  match s with
  | EmptyString => Some acc
  | String c s' =>
      match digit_value c with
      | Some d => parse_digits s' (acc * 10 + d)
      | None => None
      end
  end.

(** The sign of a numeral and the digits after it. *)
Definition has_sign (s : string) : bool :=
  match s with
  | String c _ => Ascii.eqb c "-"
  | EmptyString => false
  end.

Definition unsigned_part (s : string) : string :=
  match s with
  | String c s' => if Ascii.eqb c "-" then s' else s
  | EmptyString => s
  end.

Definition decimal_value (s : string) : option Z :=
  match unsigned_part s with
  | EmptyString => None
  | u => if has_sign s then Z.opp <$> parse_digits u 0 else parse_digits u 0
  end.

(** No leading zeros: the numeral is ["0"] or starts with another digit. *)
Definition no_leading_zeros (s : string) : Prop :=
  unsigned_part s = "0" ∨ String.get 0 (unsigned_part s) ≠ Some "0"%char.

(** [s] is the base-10 integer string of [n]: it reads back as exactly [n],
    has no leading zeros, and no sign when [n] is not negative. *)
Definition decimal_of (n : Z) (s : string) : Prop :=
  decimal_value s = Some n ∧ no_leading_zeros s ∧
  (0 ≤ n → has_sign s = false).

(** The value pair the specification asks for an entry: the timestamp as
    decimal nanoseconds since the epoch, the log line byte for byte. *)
Definition exact_pair (e : LogEntry) (p : string * string) : Prop :=
  decimal_of (nanos_since_epoch (Timestamp e)) p.1 ∧
  list_byte_of_string p.2 = LogLine e.

(** The same, the timestamp being promised only when it fits an [int64]. *)
Definition exact_pair_in_range (e : LogEntry) (p : string * string) : Prop :=
  (fits_int64 (nanos_since_epoch (Timestamp e)) →
   decimal_of (nanos_since_epoch (Timestamp e)) p.1) ∧
  list_byte_of_string p.2 = LogLine e.

(** The entries of a stream that are not absent, in input order. *)
Definition retained_entries (s : LogStream) : list LogEntry :=
  omap id (Entries s).

(** "Zero valid entries": absent, or no entry that is not absent. *)
Definition zero_valid_entries (s : option LogStream) : Prop :=
  match s with
  | None => True
  | Some s => retained_entries s = []
  end.

(** "Zero entries": absent, or no entry at all. *)
Definition zero_entries (s : option LogStream) : Prop :=
  match s with
  | None => True
  | Some s => Entries s = []
  end.

(** The streams that are present and have at least one entry, in input
    order. *)
Definition has_entries (s : LogStream) : bool :=
  negb (Nat.eqb (List.length (Entries s)) 0).

Definition retained_streams (streams : list (option LogStream))
    : list LogStream :=
  List.filter has_entries (omap id streams).

(** The value pair of an entry and the [StreamDTO] of a stream. *)
Definition value_pair (e : LogEntry) : string * string :=
  (FormatInt (UnixNano (Timestamp e)) 10, string_of_list_byte (LogLine e)).

Definition stream_dto (s : LogStream) : lokiDTOJsonV1Stream :=
  {| Stream := Labels s; Values := value_pair <$> retained_entries s |}.

(** A stream of the input contributes nothing: the output is the one the
    input without that stream gives. *)
Definition skipped (rcv : lokiJsonV1Exchanger)
    (pre : list (option LogStream)) (s : option LogStream)
    (post : list (option LogStream)) : Prop :=
  transformLogStreamsToDTO rcv (Some (pre ++ s :: post))
  = transformLogStreamsToDTO rcv (Some (pre ++ post)).

(** The environment [env] with the errors of serialization erased. *)
Definition without_serialization_errors (env : Env) : Env :=
  {| json_Encode := λ v, ((json_Encode env v).1, None);
     gzip_Writer := λ b, ((gzip_Writer env b).1, None);
     http_NewRequest := http_NewRequest env;
     restClient_Do := restClient_Do env |}.

(** The status codes of the success range [[200, 300)]. *)
Definition in_success_range (code : Z) : Prop := 200 ≤ code < 300.

End Spec.

(* ===================================================================== *)
(** ** Concrete inputs *)
(* ===================================================================== *)

Module Examples.
Import Go Exchanger.

(** Two label mappings that collide on ["env"], and a heap holding them. *)
Definition labels_job : gmap string string :=
  <["job" := "api"]> (<["env" := "dev"]> ∅).
Definition labels_env : gmap string string :=
  <["env" := "prod"]> ∅.
Definition labels_heap : gmap Shared.loc (gmap string string) :=
  <[1%positive := labels_job]> (<[2%positive := labels_env]> ∅).

Definition exchanger : lokiJsonV1Exchanger :=
  NewJSONv1Exchanger "http://loki:3100" false.

Definition entry_at (t : Time) (line : string) : LogEntry :=
  {| EntryLabels := None; EntryLevel := 1; Timestamp := t;
     LogLine := list_byte_of_string line |}.

Definition stream_of (entries : list (option LogEntry)) : LogStream :=
  {| StreamLevel := 1; Labels := Some 1%positive; Entries := entries |}.

(** A stream whose two entries are both nil. *)
Definition all_absent : LogStream := stream_of [None; None].

(** A stream with one entry that carries the zero [time.Time]. *)
Definition zero_time_entry : LogEntry := entry_at zeroTime "hi".
Definition zero_time_stream : LogStream := stream_of [Some zero_time_entry].

(** A stream whose entries come later-timestamp first, with a nil between. *)
Definition unsorted_stream : LogStream :=
  stream_of [Some (entry_at {| unixSec := 2; nsec := 5 |} "b"); None;
             Some (entry_at {| unixSec := 1; nsec := 0 |} "a")].

(** A server that answers every request with [code] and [body]; encoding
    and request construction succeed. *)
Definition env_status (code : Z) (body : Reader) : Env :=
  {| json_Encode := λ _, (list_byte_of_string "{}", None);
     gzip_Writer := λ b, (b, None);
     http_NewRequest := λ _ _, None;
     restClient_Do := λ _, inl {| StatusCode := code; RespBody := body |} |}.


(** An address [http.NewRequest] refuses, and a transport that fails. *)
Definition env_bad_url : Env :=
  {| json_Encode := λ _, (list_byte_of_string "{}", None);
     gzip_Writer := λ b, (b, None);
     http_NewRequest := λ _ _, Some "parse error";
     restClient_Do := λ _, inr "unreachable" |}.

Definition env_down : Env :=
  {| json_Encode := λ _, (list_byte_of_string "{}", None);
     gzip_Writer := λ b, (b, None);
     http_NewRequest := λ _ _, None;
     restClient_Do := λ _, inr "context deadline exceeded" |}.

End Examples.

(* ===================================================================== *)
(** ** The rest of shared.go, and the client types *)
(* ===================================================================== *)

Module SharedCopy.
Import Shared.

Section Range.

Variable range_keys : gmap string string → list string.

(** [maps.Copy(dst, src)]: [for k, v := range src { dst[k] = v }]. *)
Definition maps_Copy (dst : loc) (src : mapref) (h : heap) : heap :=
  fold_left (λ h key, store dst key (index h src key) h)
            (range_keys (deref h src)) h.

(** [[
  func copyLabels(src map[string]string) map[string]string {
      dst := make(map[string]string, len(src))
      maps.Copy(dst, src)
      return dst
  }
]] *)
Definition copyLabels (src : mapref) (h : heap) : loc * heap :=
  let '(dst, h1) := make (len h src) h in
  (dst, maps_Copy dst src h1).

End Range.

(** The sources that are not nil. *)
Definition non_nil (srcs : list mapref) : list mapref :=
  List.filter (λ src, match src with Some _ => true | None => false end) srcs.

End SharedCopy.

Module Client.
Import Exchanger.

(** [[
  const (
      Debug Level = 0
      Info  Level = 1
      Warn  Level = 2
      Error Level = 3
      Fatal Level = 4
      Panic Level = 5
  )
]] *)
Definition Debug : Level := 0.
Definition Info : Level := 1.
Definition Warn : Level := 2.
Definition Error : Level := 3.
Definition Fatal : Level := 4.
Definition Panic : Level := 5.

(** [func (l Level) String() string]: a [switch] over the six constants,
    ["unknown"] after it. *)
Definition Level_String (l : Level) : string :=
  if l =? Debug then "DEBUG"
  else if l =? Info then "INFO"
  else if l =? Warn then "WARN"
  else if l =? Error then "ERROR"
  else if l =? Fatal then "FATAL"
  else if l =? Panic then "PANIC"
  else "unknown".

(** A [Level] is a [uint8]. *)
Definition is_uint8 (l : Level) : Prop := 0 ≤ l < 256.

End Client.

Module Wire.
Import Go Exchanger.

(** The streams of a transformer result, none for a nil result. *)
Definition Streams_of (r : option lokiDTOJsonV1PushRequest)
    : list lokiDTOJsonV1Stream :=
  match r with
  | Some r => Streams r
  | None => []
  end.

(** An entry and a stream with the fields that are not sent reset: the
    entry's labels and level, the stream's level. *)
Definition wire_entry (e : LogEntry) : LogEntry :=
  {| EntryLabels := None; EntryLevel := 0;
     Timestamp := Timestamp e; LogLine := LogLine e |}.

Definition wire_stream (s : LogStream) : LogStream :=
  {| StreamLevel := 0; Labels := Labels s;
     Entries := List.map (option_map wire_entry) (Entries s) |}.

(** The buffer [Push] sends: the encoder's bytes, through the gzip writer
    when compression is on. *)
Definition expected_body (env : Env) (rcv : lokiJsonV1Exchanger)
    (streams : option (list (option LogStream))) : list byte :=
  let written := (json_Encode env (transformLogStreamsToDTO rcv streams)).1 in
  if useGzipCompression rcv then (gzip_Writer env written).1 else written.

(** The address [Push] posts to and the one [Ping] gets. *)
Definition push_url (rcv : lokiJsonV1Exchanger) : string :=
  (lokiAddress rcv ++ "/loki/api/v1/push")%string.
Definition ready_url (rcv : lokiJsonV1Exchanger) : string :=
  (lokiAddress rcv ++ "/ready")%string.

End Wire.

Module MoreExamples.
Import Go Exchanger.

(** A gzip writer that frames what it is given, to tell the two bodies
    apart. *)
Definition env_gzip : Env :=
  {| json_Encode := λ v, match v with
                         | None => (list_byte_of_string "null", None)
                         | Some _ => (list_byte_of_string "{}", None)
                         end;
     gzip_Writer := λ b, (list_byte_of_string "gz:" ++ b, None);
     http_NewRequest := λ _ _, None;
     restClient_Do := λ _, inl {| StatusCode := 204; RespBody := EOF |} |}.

Definition gzip_exchanger : lokiJsonV1Exchanger :=
  NewJSONv1Exchanger "http://loki:3100" true.

(** Two entries with different lines at the same instant. *)
Definition entry_a : LogEntry :=
  Examples.entry_at {| unixSec := 1; nsec := 0 |} "a".
Definition entry_c : LogEntry :=
  Examples.entry_at {| unixSec := 1; nsec := 0 |} "c".

End MoreExamples.

(* ===================================================================== *)
(** ** Label utilities: facts *)
(* ===================================================================== *)

Section SharedFacts.
Import Shared.

Lemma copy_keys_lookup (m : gmap string string) keys acc k :
  Forall (λ key, is_Some (m !! key)) keys →
  copy_keys m keys acc !! k = if decide (k ∈ keys) then m !! k else acc !! k.
Proof.
  revert acc. induction keys as [|key keys IH]; intros acc Hk.
  - rewrite decide_False; [done | apply not_elem_of_nil].
  - apply Forall_cons in Hk as [[v Hv] Hk'].
    change (copy_keys m (key :: keys) acc)
      with (copy_keys m keys (<[key:=default "" (m !! key)]> acc)).
    rewrite IH by done.
    destruct (decide (k ∈ keys)) as [Hin|Hnin].
    + rewrite decide_True; [done | by right].
    + destruct (decide (k = key)) as [->|Hne].
      * rewrite decide_True by left.
        by rewrite lookup_insert_eq, Hv.
      * rewrite decide_False; [by rewrite lookup_insert_ne|].
        intros [?|?]%elem_of_cons; done.
Qed.

Lemma copy_keys_all (m : gmap string string) keys acc :
  keys ≡ₚ elements (dom m) → copy_keys m keys acc = m ∪ acc.
Proof.
  intros Hp. apply map_eq; intros k.
  rewrite copy_keys_lookup.
  - destruct (m !! k) as [v|] eqn:Hm.
    + rewrite decide_True.
      * symmetry. by apply lookup_union_Some_l.
      * rewrite Hp. apply elem_of_elements, elem_of_dom. by eexists.
    + rewrite decide_False.
      * symmetry. by rewrite lookup_union_r.
      * rewrite Hp. intros Hin%elem_of_elements%elem_of_dom.
        rewrite Hm in Hin. by destruct Hin.
  - apply Forall_forall. intros key Hin. rewrite Hp in Hin.
    by apply elem_of_elements, elem_of_dom in Hin.
Qed.

(** The stores of the inner loop only touch the destination cell. *)
Lemma fold_store (dst : loc) (src : mapref) keys :
  ∀ (h : gmap loc (gmap string string)) acc,
    h !! dst = Some acc → src ≠ Some dst →
    fold_left (λ h key, store dst key (index h src key) h) keys h
    = <[dst := copy_keys (deref h src) keys acc]> h.
Proof.
  induction keys as [|key keys IH]; intros h acc Hd Hne; simpl.
  - symmetry. by apply insert_id.
  - assert (Hsrc : deref (store dst key (index h src key) h) src = deref h src).
    { unfold deref, store. destruct src as [l|]; [|done].
      rewrite lookup_insert_ne; [done | congruence]. }
    rewrite (IH _ (<[key := index h src key]> acc)).
    + rewrite Hsrc. unfold store. rewrite insert_insert_eq. reflexivity.
    + unfold store. rewrite lookup_insert_eq, Hd. reflexivity.
    + done.
Qed.

Section Order.
Variable range_keys : gmap string string → list string.
Hypothesis range_keys_perm : ∀ m, range_keys m ≡ₚ elements (dom m).

Lemma merge_one_spec (dst : loc) (src : mapref)
    (h : gmap loc (gmap string string)) acc :
  h !! dst = Some acc → src ≠ Some dst →
  merge_one range_keys dst src h = <[dst := deref h src ∪ acc]> h.
Proof.
  intros Hd Hne. unfold merge_one.
  rewrite (fold_store dst src _ h acc Hd Hne).
  by rewrite copy_keys_all.
Qed.

Lemma merge_all_spec (dst : loc) (h0 : gmap loc (gmap string string)) srcs :
  dst ∉ dom h0 → (∀ l, Some l ∈ srcs → l ∈ dom h0) →
  ∀ acc,
    fold_left (λ h src, merge_one range_keys dst src h) srcs (<[dst := acc]> h0)
    = <[dst := fold_left (λ a m, m ∪ a) (deref h0 <$> srcs) acc]> h0.
Proof.
  intros Hfresh. induction srcs as [|src srcs IH]; intros Hin acc; simpl.
  - done.
  - assert (Hne : src ≠ Some dst).
    { intros ->. apply Hfresh, Hin. left. }
    rewrite (merge_one_spec dst src _ acc);
      [| by rewrite lookup_insert_eq | done].
    rewrite insert_insert_eq.
    assert (Hsrc : deref (<[dst:=acc]> h0) src = deref h0 src).
    { unfold deref. destruct src as [l|]; [|done].
      rewrite lookup_insert_ne; [done | congruence]. }
    rewrite Hsrc. apply IH. intros l Hl. apply Hin. by right.
Qed.

End Order.

Lemma union_left_to_right_snoc ms (m : gmap string string) :
  union_left_to_right (ms ++ [m]) = m ∪ union_left_to_right ms.
Proof. unfold union_left_to_right. by rewrite fold_left_app. Qed.

Lemma from_last_source_snoc ms (m : gmap string string) key v :
  from_last_source (ms ++ [m]) key v ↔
  m !! key = Some v ∨ (m !! key = None ∧ from_last_source ms key v).
Proof.
  split.
  - intros (i & mi & Hi & Hv & Hlast).
    destruct (decide (i < List.length ms)%nat) as [Hlt|Hge].
    + right. split.
      * apply (Hlast (List.length ms) m Hlt).
        by rewrite lookup_app_r, Nat.sub_diag by lia.
      * exists i, mi. rewrite lookup_app_l in Hi by done.
        split_and!; [done..|].
        intros j m' Hj Hm'. apply (Hlast j m' Hj).
        rewrite lookup_app_l; [done|]. by eapply lookup_lt_Some.
    + left. rewrite lookup_app_r in Hi by lia.
      destruct (i - List.length ms)%nat eqn:E; simpl in Hi; [|done].
      by simplify_eq.
  - intros [Hv|[Hnone (i & mi & Hi & Hv & Hlast)]].
    + exists (List.length ms), m. split_and!.
      * by rewrite lookup_app_r, Nat.sub_diag by lia.
      * done.
      * intros j m' Hj Hm'. apply lookup_lt_Some in Hm'.
        rewrite length_app in Hm'. simpl in Hm'. lia.
    + exists i, mi. split_and!; [|done|].
      * rewrite lookup_app_l; [done|]. by eapply lookup_lt_Some.
      * intros j m' Hj Hm'.
        destruct (decide (j < List.length ms)%nat) as [Hlt|Hge].
        -- rewrite lookup_app_l in Hm' by done. by eapply Hlast.
        -- rewrite lookup_app_r in Hm' by lia.
           destruct (j - List.length ms)%nat eqn:E; simpl in Hm'; [|done].
           by simplify_eq.
Qed.

Lemma union_left_to_right_lookup ms key v :
  union_left_to_right ms !! key = Some v ↔ from_last_source ms key v.
Proof.
  induction ms as [|m ms IH] using rev_ind.
  - unfold union_left_to_right. simpl. rewrite lookup_empty. split; [done|].
    by intros (i & m & Hi & _).
  - rewrite union_left_to_right_snoc, from_last_source_snoc.
    rewrite lookup_union_Some_raw. by rewrite IH.
Qed.

Lemma union_left_to_right_dom ms key :
  is_Some (union_left_to_right ms !! key) ↔ ∃ m, m ∈ ms ∧ is_Some (m !! key).
Proof.
  induction ms as [|m ms IH] using rev_ind.
  - unfold union_left_to_right. simpl. rewrite lookup_empty. split.
    + by intros [? ?].
    + by intros (m & Hm%elem_of_nil & _).
  - rewrite union_left_to_right_snoc.
    rewrite <- !elem_of_dom, dom_union, elem_of_union, !elem_of_dom, IH.
    split.
    + intros [?|(m' & ? & ?)].
      * exists m. split; [|done]. apply elem_of_app. right. by left.
      * exists m'. split; [|done]. apply elem_of_app. by left.
    + intros (m' & [?|Hm]%elem_of_app & ?).
      * right. by exists m'.
      * apply list_elem_of_singleton in Hm. subst. by left.
Qed.

End SharedFacts.

Lemma range_in_map_order_perm (m : gmap string string) :
  Shared.range_in_map_order m ≡ₚ elements (dom m).
Proof.
  unfold Shared.range_in_map_order. apply NoDup_Permutation.
  - apply NoDup_fst_map_to_list.
  - apply NoDup_elements.
  - intros k. rewrite elem_of_elements, elem_of_dom, list_elem_of_fmap.
    split.
    + intros ([k' v] & -> & Hin%elem_of_map_to_list). by eexists.
    + intros [v Hv]. exists (k, v). split; [done|].
      by apply elem_of_map_to_list.
Qed.

(** C9. Whatever order [range] visits the keys in, and for every sequence of
    label mappings living in the heap, [copyAndMergeLabels] returns a new
    mapping (a cell that did not exist before), leaves every input mapping and
    every other existing map as it was, and the new mapping is the
    left-to-right union of the inputs: a key is in it exactly when some input
    has it, and its value is the one of the last input that has the key. *)
Theorem copyAndMergeLabels_last_write_wins
    (range_keys : gmap string string → list string)
    (srcs : list Shared.mapref)
    (h : gmap Shared.loc (gmap string string)) :
  (∀ m, range_keys m ≡ₚ elements (dom m)) →
  (∀ l, Some l ∈ srcs → l ∈ dom h) →
  ∃ dst h',
    Shared.copyAndMergeLabels range_keys srcs h = (dst, h') ∧
    (dst ∉ dom h) ∧
    (∀ l, l ∈ dom h → h' !! l = h !! l) ∧
    (∀ src, src ∈ srcs → Shared.deref h' src = Shared.deref h src) ∧
    Shared.deref h' (Some dst)
      = Shared.union_left_to_right (Shared.deref h <$> srcs) ∧
    (∀ key, is_Some (Shared.deref h' (Some dst) !! key) ↔
            ∃ src, src ∈ srcs ∧ is_Some (Shared.deref h src !! key)) ∧
    (∀ key v, Shared.deref h' (Some dst) !! key = Some v ↔
              Shared.from_last_source (Shared.deref h <$> srcs) key v).
Proof.
  intros Hperm Hin.
  set (dst := fresh (dom h)).
  assert (Hfresh : dst ∉ dom h) by apply is_fresh.
  exists dst, (<[dst := Shared.union_left_to_right (Shared.deref h <$> srcs)]> h).
  assert (Hnew : Shared.deref
            (<[dst := Shared.union_left_to_right (Shared.deref h <$> srcs)]> h)
            (Some dst)
          = Shared.union_left_to_right (Shared.deref h <$> srcs)).
  { unfold Shared.deref. by rewrite lookup_insert_eq. }
  split_and!.
  - unfold Shared.copyAndMergeLabels, Shared.make. fold dst.
    f_equal. by apply merge_all_spec.
  - done.
  - intros l Hl. rewrite lookup_insert_ne; [done|]. by intros ->.
  - intros [l|] Hsrc; [|done]. unfold Shared.deref.
    rewrite lookup_insert_ne; [done|]. intros ->. by apply Hfresh, Hin.
  - done.
  - intros key. rewrite Hnew, union_left_to_right_dom. split.
    + intros (m & (src & -> & Hsrc)%list_elem_of_fmap & Hm). by exists src.
    + intros (src & Hsrc & Hm). exists (Shared.deref h src).
      split; [|done]. apply list_elem_of_fmap. by exists src.
  - intros key v. rewrite Hnew. apply union_left_to_right_lookup.
Qed.

Lemma copyAndMergeLabels_last_write_wins_witness :
  ∃ dst h',
    Shared.copyAndMergeLabels Shared.range_in_map_order
      [Some 1%positive; None; Some 2%positive] Examples.labels_heap = (dst, h') ∧
    h' !! 1%positive = Some Examples.labels_job ∧
    Shared.deref h' (Some dst) !! "env" = Some "prod" ∧
    Shared.deref h' (Some dst) !! "job" = Some "api".
Proof.
  destruct (copyAndMergeLabels_last_write_wins Shared.range_in_map_order
              [Some 1%positive; None; Some 2%positive] Examples.labels_heap)
    as (dst & h' & Hrun & _ & Hkeep & _ & Hunion & _ & _).
  - apply range_in_map_order_perm.
  - intros l Hl. apply elem_of_dom.
    repeat (apply elem_of_cons in Hl as [Hl|Hl]; [simplify_eq; by eexists|]).
    by apply elem_of_nil in Hl.
  - exists dst, h'. split_and!.
    + exact Hrun.
    + rewrite Hkeep; [reflexivity|]. apply elem_of_dom. by eexists.
    + rewrite Hunion. vm_compute. reflexivity.
    + rewrite Hunion. vm_compute. reflexivity.
Defined.

(* ===================================================================== *)
(** ** Stream transformer: facts *)
(* ===================================================================== *)

Section TransformFacts.
Import Go Exchanger Spec.

Lemma fold_append_entry entries : ∀ values,
  fold_left append_entry entries values
  = values ++ (value_pair <$> omap id entries).
Proof.
  induction entries as [|[e|] entries IH]; intros values; simpl.
  - by rewrite app_nil_r.
  - rewrite IH. by rewrite <- app_assoc.
  - apply IH.
Qed.

Lemma append_stream_spec out (s : option LogStream) :
  append_stream out s = out ++ (stream_dto <$> retained_streams [s]).
Proof.
  destruct s as [s|]; simpl; [|by rewrite app_nil_r].
  unfold retained_streams, has_entries. simpl.
  destruct (Entries s) as [|e es] eqn:E; simpl.
  - by rewrite app_nil_r.
  - unfold stream_dto, retained_entries. rewrite E.
    rewrite fold_append_entry. by destruct e.
Qed.

Lemma retained_streams_app l1 l2 :
  retained_streams (l1 ++ l2) = retained_streams l1 ++ retained_streams l2.
Proof.
  unfold retained_streams. by rewrite omap_app, List.filter_app.
Qed.

Lemma fold_append_stream streams : ∀ out,
  fold_left append_stream streams out
  = out ++ (stream_dto <$> retained_streams streams).
Proof.
  induction streams as [|s streams IH]; intros out; simpl.
  - by rewrite app_nil_r.
  - rewrite IH, append_stream_spec, <- app_assoc, <- fmap_app.
    by rewrite <- retained_streams_app.
Qed.

Lemma transform_streams rcv streams :
  transformLogStreamsToDTO rcv (Some streams)
  = Some {| Streams := stream_dto <$> retained_streams streams |}.
Proof. unfold transformLogStreamsToDTO. by rewrite fold_append_stream. Qed.

Lemma retained_streams_zero_entries s :
  zero_entries s ↔ retained_streams [s] = [].
Proof.
  destruct s as [s|]; simpl; [|done].
  unfold retained_streams, has_entries. simpl.
  destruct (Entries s); simpl; split; done.
Qed.

End TransformFacts.

(* ===================================================================== *)
(** ** Decimal formatting: facts *)
(* ===================================================================== *)

Section FormatFacts.
Import Go Spec.

Lemma string_app_assoc (s1 s2 s3 : string) :
  ((s1 ++ s2) ++ s3 = s1 ++ (s2 ++ s3))%string.
Proof.
  induction s1 as [|c s1 IH]; [done|].
  change (String c ((s1 ++ s2) ++ s3) = String c (s1 ++ (s2 ++ s3)))%string.
  by f_equal.
Qed.

Lemma digit_value_digit d :
  0 ≤ d ≤ 9 → digit_value (digit d) = Some d.
Proof.
  intros Hd.
  assert (Hcases : d = 0 ∨ d = 1 ∨ d = 2 ∨ d = 3 ∨ d = 4 ∨ d = 5 ∨ d = 6 ∨
                   d = 7 ∨ d = 8 ∨ d = 9) by lia.
  repeat (destruct Hcases as [->|Hcases]; [reflexivity|]).
  by subst.
Qed.

Lemma digit_value_zero c d :
  digit_value c = Some d → d ≠ 0 → c ≠ "0"%char.
Proof. intros Hc Hd ->. vm_compute in Hc. congruence. Qed.

Lemma digit_value_not_sign c d :
  digit_value c = Some d → Ascii.eqb c "-" = false.
Proof.
  intros Hc. apply Ascii.eqb_neq. intros ->. vm_compute in Hc. congruence.
Qed.

Lemma parse_digits_app s1 s2 acc :
  parse_digits (s1 ++ s2)%string acc
  = parse_digits s1 acc ≫= parse_digits s2.
Proof.
  revert acc. induction s1 as [|c s1 IH]; intros acc; simpl; [done|].
  destruct (digit_value c); [apply IH | done].
Qed.

Lemma formatBits_loop_app fuel : ∀ u a,
  formatBits_loop fuel u 10 a = (formatBits_loop fuel u 10 "" ++ a)%string.
Proof.
  induction fuel as [|fuel IH]; intros u a; simpl; [done|].
  destruct (10 <=? u); [|done].
  rewrite (IH _ (String _ a)), (IH _ (String _ "")).
  by rewrite string_app_assoc.
Qed.

(** With enough room for the digits of [u], the loop writes a numeral that
    reads back as [u]. *)
Lemma formatBits_loop_value fuel : ∀ u,
  0 ≤ u < 10 ^ Z.of_nat fuel →
  parse_digits (formatBits_loop fuel u 10 "") 0 = Some u.
Proof.
  induction fuel as [|fuel IH]; intros u Hu.
  - simpl in *. f_equal. lia.
  - rewrite Nat2Z.inj_succ, Z.pow_succ_r in Hu by lia.
    cbn [formatBits_loop]. destruct (Z.leb_spec 10 u) as [Hge|Hlt].
    + rewrite formatBits_loop_app, parse_digits_app.
      rewrite IH.
      * cbn [mbind option_bind parse_digits].
        rewrite digit_value_digit.
        -- f_equal; lia.
        -- pose proof (Z.mod_pos_bound u 10). pose proof (Z.div_mod u 10).
           lia.
      * split; [apply Z.div_pos; lia|].
        apply Z.div_lt_upper_bound; lia.
    + cbn [parse_digits]. rewrite digit_value_digit by lia.
      f_equal; lia.
Qed.

(** The first character written is a digit, and not ['0'] unless [u] is 0. *)
Lemma formatBits_loop_head fuel : ∀ u a,
  0 ≤ u < 10 ^ Z.of_nat (S fuel) →
  ∃ c rest d,
    formatBits_loop (S fuel) u 10 a = String c rest ∧
    digit_value c = Some d ∧ (0 < u → d ≠ 0).
Proof.
  induction fuel as [|fuel IH]; intros u a Hu.
  - cbn [formatBits_loop]. change (10 ^ Z.of_nat 1) with 10 in Hu.
    destruct (Z.leb_spec 10 u) as [Hge|Hlt]; [lia|].
    exists (digit u), a, u. split_and!; [done | | lia].
    apply digit_value_digit. lia.
  - rewrite Nat2Z.inj_succ, Z.pow_succ_r in Hu by lia.
    remember (S fuel) as n. cbn [formatBits_loop].
    destruct (Z.leb_spec 10 u) as [Hge|Hlt].
    + destruct (IH (u / 10) (String (digit (u - u / 10 * 10)) a))
        as (c & rest & d & Heq & Hc & Hd).
      * subst n. split; [apply Z.div_pos; lia|].
        apply Z.div_lt_upper_bound; lia.
      * exists c, rest, d. split_and!; [done..|].
        intros _. apply Hd. apply Z.div_str_pos. lia.
    + exists (digit u), a, u. split_and!; [done | | lia].
      apply digit_value_digit. lia.
Qed.

Lemma formatBits_loop_zero fuel a :
  formatBits_loop (S fuel) 0 10 a = String "0" a.
Proof. reflexivity. Qed.

Lemma decimal_of_negative c rest n :
  parse_digits (String c rest) 0 = Some (- n) →
  String.get 0 (String c rest) ≠ Some "0"%char →
  n < 0 →
  decimal_of n (String "-" (String c rest)).
Proof.
  intros Hval Hhead Hn. unfold decimal_of, decimal_value, no_leading_zeros.
  change (unsigned_part (String "-" (String c rest))) with (String c rest).
  change (has_sign (String "-" (String c rest))) with true.
  cbv iota beta. rewrite Hval. cbn [fmap option_fmap option_map].
  rewrite Z.opp_involutive. split_and!; [done | by right | lia].
Qed.

Lemma decimal_of_unsigned c rest d n :
  digit_value c = Some d →
  parse_digits (String c rest) 0 = Some n →
  String c rest = "0" ∨ String.get 0 (String c rest) ≠ Some "0"%char →
  decimal_of n (String c rest).
Proof.
  intros Hc Hval Hhead. pose proof (digit_value_not_sign _ _ Hc) as Hsign.
  unfold decimal_of, decimal_value, no_leading_zeros.
  assert (Hu : unsigned_part (String c rest) = String c rest).
  { unfold unsigned_part. by rewrite Hsign. }
  assert (Hs : has_sign (String c rest) = false) by done.
  rewrite Hu, Hs. cbv iota beta. done.
Qed.

(** [FormatInt] on an [int64] value is its canonical decimal numeral. *)
Lemma FormatInt_decimal n :
  fits_int64 n → decimal_of n (FormatInt n 10).
Proof.
  intros [Hlo Hhi]. unfold FormatInt, formatBits.
  assert (H65 : 2 ^ 63 < 10 ^ Z.of_nat 65) by (vm_compute; reflexivity).
  destruct (Z.ltb_spec n 0) as [Hneg|Hpos].
  - assert (Hu : wrapu64 (- wrapu64 n) = - n).
    { unfold wrapu64.
      replace (n mod 2 ^ 64) with (n + 2 ^ 64)
        by (apply Z.mod_unique with (-1); lia).
      symmetry; apply Z.mod_unique with (-1); lia. }
    rewrite Hu.
    assert (0 ≤ -n < 10 ^ Z.of_nat 65) as Hr by lia.
    destruct (formatBits_loop_head 64 (- n) "" Hr)
      as (c & rest & d & Heq & Hc & Hd).
    pose proof (formatBits_loop_value 65 (- n) Hr) as Hval.
    rewrite Heq in *.
    apply decimal_of_negative; [done | | done].
    intros [= ->]. eapply digit_value_zero; [done | | done].
    apply Hd. lia.
  - assert (Hu : wrapu64 n = n).
    { unfold wrapu64. apply Z.mod_small. lia. }
    rewrite Hu.
    assert (0 ≤ n < 10 ^ Z.of_nat 65) as Hr by lia.
    destruct (formatBits_loop_head 64 n "" Hr)
      as (c & rest & d & Heq & Hc & Hd).
    pose proof (formatBits_loop_value 65 n Hr) as Hval.
    destruct (decide (n = 0)) as [->|Hn].
    + rewrite formatBits_loop_zero. apply (decimal_of_unsigned _ _ 0).
      reflexivity. reflexivity. by left.
    + rewrite Heq in *. apply (decimal_of_unsigned _ _ d); [done..|].
      right. intros [= ->]. eapply digit_value_zero; [done | | done].
      apply Hd. lia.
Qed.

End FormatFacts.

(* ===================================================================== *)
(** ** Stream transformer: the claims *)
(* ===================================================================== *)

Section TransformClaims.
Import Go Exchanger Spec.

Lemma retained_streams_sublist streams :
  (Some <$> retained_streams streams) `sublist_of` streams.
Proof.
  induction streams as [|[s|] streams IH].
  - constructor.
  - change (Some s :: streams) with ([Some s] ++ streams).
    rewrite retained_streams_app, fmap_app.
    unfold retained_streams at 1. simpl.
    destruct (has_entries s); simpl.
    + by constructor.
    + by apply sublist_cons.
  - by apply sublist_cons.
Qed.

Lemma retained_entries_sublist s :
  (Some <$> retained_entries s) `sublist_of` Entries s.
Proof.
  unfold retained_entries.
  induction (Entries s) as [|[e|] entries IH]; simpl.
  - constructor.
  - by constructor.
  - by apply sublist_cons.
Qed.

(** C1 (as the specification states it, refuted).  The stream [all_absent]
    has two entries, both absent, hence zero valid entries; yet it is not
    skipped: it appears in the output as a [StreamDTO] with an empty value
    list. *)
Lemma transform_keeps_all_absent_stream :
  zero_valid_entries (Some Examples.all_absent) ∧
  transformLogStreamsToDTO Examples.exchanger (Some [Some Examples.all_absent])
  = Some {| Streams := [{| Stream := Some 1%positive; Values := [] |}] |} ∧
  ¬ skipped Examples.exchanger [] (Some Examples.all_absent) [].
Proof. split_and!; [reflexivity | reflexivity | discriminate]. Qed.

(** C1 (amended).  An input stream is skipped entirely and contributes
    nothing to the output exactly when it is absent or has zero entries
    (absent ones counted).  A stream that has entries, all of them absent, is
    not skipped: the output holds a [StreamDTO] with its labels and an empty
    value list for it. *)
Theorem transform_skips_streams_without_entries rcv pre s post :
  (zero_entries s ↔ skipped rcv pre s post) ∧
  (∀ st, s = Some st → Entries st ≠ [] → retained_entries st = [] →
     ∃ out, transformLogStreamsToDTO rcv (Some (pre ++ s :: post)) = Some out ∧
            Streams out
            = (stream_dto <$> retained_streams pre)
              ++ {| Stream := Labels st; Values := [] |}
              :: (stream_dto <$> retained_streams post)).
Proof.
  assert (Hsplit : retained_streams (pre ++ s :: post)
            = retained_streams pre ++ retained_streams [s]
              ++ retained_streams post).
  { change (s :: post) with ([s] ++ post).
    by rewrite !retained_streams_app. }
  split.
  - unfold skipped. rewrite !transform_streams, Hsplit.
    rewrite retained_streams_zero_entries, retained_streams_app. split.
    + by intros ->.
    + intros [= Heq]. apply (f_equal List.length) in Heq.
      rewrite !length_fmap, !length_app in Heq.
      apply length_zero_iff_nil. lia.
  - intros st -> Hne Hnone. eexists. split; [apply transform_streams|].
    cbn [Streams]. rewrite Hsplit, !fmap_app. do 2 f_equal.
    unfold retained_streams, has_entries. simpl.
    destruct (Entries st) eqn:E; [done|]. simpl.
    unfold stream_dto. by rewrite Hnone.
Qed.

(** C3.  An absent (nil) stream sequence gives an absent (nil) result; a
    present but empty sequence gives a present request whose stream list is
    empty; and a present sequence always gives a present request. *)
Theorem transform_absent_vs_empty rcv :
  transformLogStreamsToDTO rcv None = None ∧
  transformLogStreamsToDTO rcv (Some []) = Some {| Streams := [] |} ∧
  (∀ streams, is_Some (transformLogStreamsToDTO rcv (Some streams))).
Proof. split_and!; [done | done | by eexists]. Qed.

(** C5.  The output streams are the retained input streams (present, with
    at least one entry) in input order, one [StreamDTO] each, and the value
    pairs of each are those of its non-absent entries in input order:
    nothing is reordered, merged or dropped beyond the filtering, whatever
    the timestamps.  The retained streams and entries are subsequences of
    the input. *)
Theorem transform_preserves_order rcv streams :
  transformLogStreamsToDTO rcv (Some streams)
  = Some {| Streams := stream_dto <$> retained_streams streams |} ∧
  (Some <$> retained_streams streams) `sublist_of` streams ∧
  (∀ s, (Some <$> retained_entries s) `sublist_of` Entries s) ∧
  transformLogStreamsToDTO rcv (Some [Some Examples.unsorted_stream])
  = Some {| Streams := [{| Stream := Some 1%positive;
                           Values := [("2000000005", "b");
                                      ("1000000000", "a")] |}] |}.
Proof.
  split_and!.
  - apply transform_streams.
  - apply retained_streams_sublist.
  - apply retained_entries_sublist.
  - reflexivity.
Qed.

End TransformClaims.

Section ValuePairClaims.
Import Go Exchanger Spec.

Lemma value_pair_in_range e : exact_pair_in_range e (value_pair e).
Proof.
  split.
  - intros Hfit. unfold value_pair, UnixNano. cbn [fst].
    assert (Hwrap : wrap64 (unixSec (Timestamp e) * 1000000000
                            + nsec (Timestamp e))
                    = nanos_since_epoch (Timestamp e)).
    { unfold wrap64, nanos_since_epoch, fits_int64 in *.
      rewrite Z.mod_small; lia. }
    rewrite Hwrap. by apply FormatInt_decimal.
  - apply list_byte_of_string_of_list_byte.
Qed.

(** C4 (as the specification states it, refuted).  An entry carrying the zero
    [time.Time] (January 1 of year 1, which is -62135596800000000000 ns from
    the epoch) is given the first component ["-6795364578871345152"]: the
    [int64] nanosecond count has wrapped, and the pair is not the exact
    one. *)
Lemma transform_zero_time_not_exact :
  transformLogStreamsToDTO Examples.exchanger
    (Some [Some Examples.zero_time_stream])
  = Some {| Streams := [{| Stream := Some 1%positive;
                           Values := [("-6795364578871345152", "hi")] |}] |} ∧
  nanos_since_epoch (Timestamp Examples.zero_time_entry)
  = -62135596800000000000 ∧
  decimal_value "-6795364578871345152" = Some (-6795364578871345152) ∧
  ¬ exact_pair Examples.zero_time_entry ("-6795364578871345152", "hi").
Proof.
  split_and!; [reflexivity | reflexivity | reflexivity |].
  intros [[Hval _] _]. vm_compute in Hval. discriminate.
Qed.

(** C4 (amended).  Every retained (non-absent) entry of a retained stream
    produces exactly one value pair, at the entry's rank among the retained
    entries.  Its second component is the log line's bytes, unchanged.  When
    the entry's instant is an [int64] number of nanoseconds from the Unix
    epoch (years 1678 to 2262), its first component is that number in base
    10, exactly: it reads back as the number, has no leading zeros, and no
    sign unless the number is negative.  The epoch gives ["0"], one
    nanosecond later gives ["1"]. *)
Theorem transform_value_pairs rcv streams :
  ∃ out,
    transformLogStreamsToDTO rcv (Some streams) = Some out ∧
    Forall2 (λ s dto, Forall2 exact_pair_in_range (retained_entries s)
                                                  (Values dto))
            (retained_streams streams) (Streams out) ∧
    (∀ line, value_pair (Examples.entry_at epoch line) = ("0", line)) ∧
    (∀ line, value_pair (Examples.entry_at epoch_plus_1ns line) = ("1", line)).
Proof.
  eexists. split; [apply transform_streams|]. cbn [Streams]. split_and!.
  - apply Forall2_fmap_r, Forall_Forall2_diag, Forall_forall.
    intros s _. cbn [Values stream_dto].
    apply Forall2_fmap_r, Forall_Forall2_diag, Forall_forall.
    intros e _. apply value_pair_in_range.
  - intros line. unfold value_pair, Examples.entry_at. cbn [Timestamp LogLine].
    by rewrite string_of_list_byte_of_string.
  - intros line. unfold value_pair, Examples.entry_at. cbn [Timestamp LogLine].
    by rewrite string_of_list_byte_of_string.
Qed.

End ValuePairClaims.

(* ===================================================================== *)
(** ** Push and Ping: the claims *)
(* ===================================================================== *)

Section ExchangeClaims.
Import Go Exchanger Spec.

Lemma isSuccessHTTPCode_range rcv code :
  isSuccessHTTPCode rcv code = true ↔ in_success_range code.
Proof.
  unfold isSuccessHTTPCode, in_success_range.
  rewrite andb_true_iff, !Z.ltb_lt. lia.
Qed.

Lemma ReadAll_content r :
  (ReadAll r).2 = None → (ReadAll r).1 = content r.
Proof.
  induction r as [|e|data rest IH]; simpl; [done..|].
  destruct (ReadAll rest) as [b err]. simpl in *.
  intros Herr. by rewrite IH.
Qed.

(** The function literal of [Push] does report a failing encoder... *)
Lemma Push_encode_reports env rcv streams written e :
  json_Encode env (transformLogStreamsToDTO rcv streams) = (written, Some e) →
  (Push_encode env rcv streams).2
  = Some ("failed to encode streams message: " ++ e)%string.
Proof. intros H. unfold Push_encode. by rewrite H. Qed.

(** ... but [Push] behaves as if serialization never failed. *)
Lemma Push_ignores_serialization_errors env rcv streams :
  Push env rcv streams = Push (without_serialization_errors env) rcv streams.
Proof.
  unfold Push, Push_encode, without_serialization_errors. simpl.
  destruct (json_Encode env (transformLogStreamsToDTO rcv streams))
    as [written [e|]]; reflexivity.
Qed.


(** What [Push] sends and returns once the request could be built. *)
Lemma Push_sent env rcv streams req :
  (Push env rcv streams).1 = [req] →
  http_NewRequest env "POST" (lokiAddress rcv ++ "/loki/api/v1/push")%string
  = None ∧
  (Push env rcv streams).2
  = match restClient_Do env req with
    | inr err => Some ("failed to send push message: " ++ err)%string
    | inl resp =>
        if isSuccessHTTPCode rcv (StatusCode resp) then None
        else Some ("unexpected response code [code="
                   ++ FormatInt (StatusCode resp) 10 ++ "], message: "
                   ++ string_of_list_byte (ReadAll (RespBody resp)).1)%string
    end ∧
  Header req !! "Authorization"
  = if nonempty (username rcv) && nonempty (password rcv)
    then Some ["Basic " ++ basicAuth (username rcv) (password rcv)]%string
    else None.
Proof.
  unfold Push.
  destruct (Push_encode env rcv streams) as [buf encode_err].
  destruct (http_NewRequest env "POST" _) as [err|]; [done|].
  match goal with
  | |- context [restClient_Do env ?r] => set (sent := r)
  end.
  assert (Hauth : Header sent !! "Authorization"
            = if nonempty (username rcv) && nonempty (password rcv)
              then Some ["Basic " ++ basicAuth (username rcv) (password rcv)]%string
              else None).
  { subst sent.
    destruct (nonempty (username rcv) && nonempty (password rcv));
      destruct (useGzipCompression rcv); by simplify_map_eq. }
  clearbody sent.
  destruct (restClient_Do env sent) as [resp|err] eqn:Hdo.
  - destruct (isSuccessHTTPCode rcv (StatusCode resp)) eqn:Hcode; simpl.
    + intros [= <-]. rewrite Hdo, Hcode. by split_and!.
    + destruct (ReadAll (RespBody resp)) as [messageBody read_err] eqn:Hread.
      simpl. intros [= <-]. rewrite Hdo, Hcode, Hread. by split_and!.
  - simpl. intros [= <-]. rewrite Hdo. by split_and!.
Qed.

End ExchangeClaims.

Section StatusClaims.
Import Go Exchanger Spec.

Lemma nonempty_true s : nonempty s = true ↔ s ≠ "".
Proof.
  unfold nonempty. rewrite negb_true_iff. apply String.eqb_neq.
Qed.

Lemma both_nonempty u p :
  nonempty u && nonempty p = true ↔ u ≠ "" ∧ p ≠ "".
Proof. by rewrite andb_true_iff, !nonempty_true. Qed.

(** C6.  Once the transport has answered the request of [Push] with a
    response, [Push] returns a nil error exactly when the status code is in
    [[200, 300)]; for every other code it returns an error whose message
    holds the status code in decimal and the bytes [io.ReadAll] got from the
    response body, which are the whole body whenever the body could be read
    to its end. *)
Theorem Push_status_code env rcv streams req resp :
  (Push env rcv streams).1 = [req] →
  restClient_Do env req = inl resp →
  ((Push env rcv streams).2 = None ↔ in_success_range (StatusCode resp)) ∧
  (¬ in_success_range (StatusCode resp) →
   (Push env rcv streams).2
   = Some ("unexpected response code [code="
           ++ FormatInt (StatusCode resp) 10 ++ "], message: "
           ++ string_of_list_byte (ReadAll (RespBody resp)).1)%string ∧
   ((ReadAll (RespBody resp)).2 = None →
    (ReadAll (RespBody resp)).1 = content (RespBody resp))).
Proof.
  intros Hsent Hdo.
  destruct (Push_sent env rcv streams req Hsent) as (_ & Hres & _).
  rewrite Hdo in Hres. rewrite Hres.
  rewrite <- (isSuccessHTTPCode_range rcv).
  destruct (isSuccessHTTPCode rcv (StatusCode resp)); split.
  - by split.
  - by intros [].
  - by split.
  - intros _. split; [done | apply ReadAll_content].
Qed.

Lemma Push_status_code_witness :
  (Push (Examples.env_status 500
           (Chunk (list_byte_of_string "internal ")
              (Chunk (list_byte_of_string "error") EOF)))
        Examples.exchanger (Some [])).2
  = Some "unexpected response code [code=500], message: internal error" ∧
  (Push (Examples.env_status 204 EOF) Examples.exchanger (Some [])).2 = None.
Proof.
  split.
  - edestruct (Push_status_code
                 (Examples.env_status 500
                    (Chunk (list_byte_of_string "internal ")
                       (Chunk (list_byte_of_string "error") EOF)))
                 Examples.exchanger (Some [])) as [_ Hfail].
    + vm_compute. reflexivity.
    + reflexivity.
    + destruct Hfail as [Hmsg _].
      * unfold in_success_range. simpl. lia.
      * rewrite Hmsg. reflexivity.
  - edestruct (Push_status_code (Examples.env_status 204 EOF)
                 Examples.exchanger (Some [])) as [Hok _].
    + vm_compute. reflexivity.
    + reflexivity.
    + apply Hok. unfold in_success_range. simpl. lia.
Defined.

(** What [Ping] sends and returns. *)
Lemma Ping_cases env rcv :
  (∃ err, http_NewRequest env "GET" (lokiAddress rcv ++ "/ready")%string
          = Some err ∧
          Ping env rcv
          = ([], (None, Some ("unable to build ping request: " ++ err)%string)))
  ∨ (∃ req err, restClient_Do env req = inr err ∧
          Ping env rcv
          = ([req], (None, Some ("pong is not received: " ++ err)%string)))
  ∨ (∃ req resp, restClient_Do env req = inl resp ∧
          Ping env rcv
          = ([req],
             (Some {| IsReady := isSuccessHTTPCode rcv (StatusCode resp) |},
              None))).
Proof.
  unfold Ping.
  destruct (http_NewRequest env "GET" _) as [err|]; [left; by eexists|].
  right.
  match goal with
  | |- context [restClient_Do env ?r] => set (sent := r)
  end.
  destruct (restClient_Do env sent) as [resp|err] eqn:Hdo.
  - right. exists sent, resp. split; [done|].
    by destruct (isSuccessHTTPCode rcv (StatusCode resp)).
  - left. by exists sent, err.
Qed.

(** C7.  Once the transport has answered the request of [Ping] with a
    response, [Ping] returns a [PongResponse] and a nil error; [IsReady] is
    true exactly when the status code is in [[200, 300)], so that any other
    status code gives [(PongResponse{IsReady: false}, nil)]. *)
Theorem Ping_readiness env rcv req resp :
  (Ping env rcv).1 = [req] →
  restClient_Do env req = inl resp →
  ∃ pong,
    (Ping env rcv).2 = (Some pong, None) ∧
    (IsReady pong = true ↔ in_success_range (StatusCode resp)) ∧
    (¬ in_success_range (StatusCode resp) →
     (Ping env rcv).2 = (Some {| IsReady := false |}, None)).
Proof.
  intros Hsent Hdo.
  destruct (Ping_cases env rcv)
    as [(err & _ & Hp)|[(req' & err & Hdo' & Hp)|(req' & resp' & Hdo' & Hp)]];
    rewrite Hp in *; simpl in Hsent; [done| |].
  - injection Hsent as ->. congruence.
  - injection Hsent as ->. rewrite Hdo in Hdo'. injection Hdo' as <-.
    eexists. split_and!; [done | apply isSuccessHTTPCode_range |].
    intros Hout. simpl. do 3 f_equal.
    apply not_true_is_false. by rewrite isSuccessHTTPCode_range.
Qed.

Lemma Ping_readiness_witness :
  (Ping (Examples.env_status 503 EOF) Examples.exchanger).2
  = (Some {| IsReady := false |}, None).
Proof.
  edestruct (Ping_readiness (Examples.env_status 503 EOF) Examples.exchanger)
    as (pong & _ & _ & Hnot).
  - reflexivity.
  - reflexivity.
  - apply Hnot. unfold in_success_range. simpl. lia.
Defined.

Example Ping_request_not_built :
  Ping Examples.env_bad_url Examples.exchanger
  = ([], (None, Some "unable to build ping request: parse error")).
Proof. reflexivity. Qed.

Example Ping_transport_down :
  (Ping Examples.env_down Examples.exchanger).2
  = (None, Some "pong is not received: context deadline exceeded").
Proof. reflexivity. Qed.

Example Ping_ready :
  (Ping (Examples.env_status 200 EOF) Examples.exchanger).2
  = (Some {| IsReady := true |}, None).
Proof. reflexivity. Qed.

(** C10.  [Ping] returns either a [PongResponse] with a nil error or a nil
    [PongResponse] with an error, never both nil nor both non-nil; the
    [PongResponse] is there exactly when the request was built and the
    transport answered it with a response. *)
Theorem Ping_exactly_one_result env rcv :
  ∃ pong err,
    (Ping env rcv).2 = (pong, err) ∧
    ((is_Some pong ∧ err = None) ∨ (pong = None ∧ is_Some err)) ∧
    (is_Some pong ↔
     ∃ req resp, (Ping env rcv).1 = [req] ∧ restClient_Do env req = inl resp).
Proof.
  destruct (Ping_cases env rcv)
    as [(err & _ & Hp)|[(req & err & Hdo & Hp)|(req & resp & Hdo & Hp)]];
    rewrite Hp; simpl; eexists _, _; (split; [reflexivity|]).
  - split; [right; by eauto|]. split; [by intros [? ?]|].
    by intros (req & resp & [=] & _).
  - split; [right; by eauto|]. split; [by intros [? ?]|].
    intros (req' & resp & [= <-] & Hdo'). congruence.
  - split; [left; by eauto|]. split; [|by eauto].
    intros _. by exists req, resp.
Qed.

End StatusClaims.

Section AuthClaims.
Import Go Exchanger Spec.

Lemma Push_without_credentials env rcv streams :
  username rcv = "" ∨ password rcv = "" →
  Push env rcv streams = Push env (SetBasicAuth "" "" rcv) streams.
Proof.
  intros Hempty.
  assert (Hoff : nonempty (username rcv) && nonempty (password rcv) = false).
  { apply not_true_is_false. rewrite both_nonempty.
    intros [Hu Hp]. by destruct Hempty. }
  unfold Push, Push_encode, isSuccessHTTPCode, transformLogStreamsToDTO.
  cbn [SetBasicAuth username password useGzipCompression lokiAddress].
  rewrite Hoff. reflexivity.
Qed.

(** C8.  The request [Push] hands to the transport carries an
    [Authorization] header exactly when the stored username and the stored
    password are both non-empty, and the header then is the Basic credential
    of the two.  With an empty username or an empty password [Push] does what
    it does with no credentials at all, so no error comes from partial
    credentials.  [SetBasicAuth] stores whatever it is given, replacing what
    was stored and leaving the other fields alone. *)
Theorem Push_basic_auth env rcv streams req :
  (Push env rcv streams).1 = [req] →
  (is_Some (Header req !! "Authorization") ↔
   username rcv ≠ "" ∧ password rcv ≠ "") ∧
  (username rcv ≠ "" → password rcv ≠ "" →
   Header req !! "Authorization"
   = Some ["Basic " ++ EncodeToString (username rcv ++ ":" ++ password rcv)]%string) ∧
  (username rcv = "" ∨ password rcv = "" →
   Push env rcv streams = Push env (SetBasicAuth "" "" rcv) streams) ∧
  (∀ u p, username (SetBasicAuth u p rcv) = u ∧
          password (SetBasicAuth u p rcv) = p ∧
          useGzipCompression (SetBasicAuth u p rcv) = useGzipCompression rcv ∧
          lokiAddress (SetBasicAuth u p rcv) = lokiAddress rcv) ∧
  (∀ u p u' p',
     SetBasicAuth u p (SetBasicAuth u' p' rcv) = SetBasicAuth u p rcv).
Proof.
  intros Hsent.
  destruct (Push_sent env rcv streams req Hsent) as (_ & _ & Hauth).
  rewrite Hauth. split_and!.
  - rewrite <- both_nonempty.
    destruct (nonempty (username rcv) && nonempty (password rcv)).
    + split; [done | by eexists].
    + split; [by intros [? ?] | done].
  - intros Hu Hp.
    by rewrite (proj2 (both_nonempty (username rcv) (password rcv))).
  - apply Push_without_credentials.
  - done.
  - done.
Qed.

Lemma Push_basic_auth_witness :
  ∃ req,
    (Push (Examples.env_status 204 EOF)
          (SetBasicAuth "u" "p" Examples.exchanger) (Some [])).1 = [req] ∧
    Header req !! "Authorization" = Some ["Basic dTpw"].
Proof.
  eexists. split.
  - vm_compute. reflexivity.
  - edestruct (Push_basic_auth (Examples.env_status 204 EOF)
                 (SetBasicAuth "u" "p" Examples.exchanger) (Some []))
      as (_ & Hhdr & _).
    + vm_compute. reflexivity.
    + rewrite Hhdr; [reflexivity | discriminate | discriminate].
Defined.

End AuthClaims.

(* ===================================================================== *)
(** ** Label utilities: further properties *)
(* ===================================================================== *)

Section SharedMore.
Import Shared SharedCopy.

Variable range_keys : gmap string string → list string.
Hypothesis range_keys_perm : ∀ m, range_keys m ≡ₚ elements (dom m).

Lemma range_keys_empty : range_keys ∅ = [].
Proof.
  apply Permutation_nil_r. rewrite range_keys_perm.
  by rewrite dom_empty_L, elements_empty.
Qed.

Lemma merge_one_nil (dst : loc) (h : gmap loc (gmap string string)) :
  merge_one range_keys dst None h = h.
Proof. unfold merge_one. simpl. by rewrite range_keys_empty. Qed.

Lemma merge_non_nil (dst : loc) srcs :
  ∀ h : gmap loc (gmap string string),
    fold_left (λ h src, merge_one range_keys dst src h) srcs h
    = fold_left (λ h src, merge_one range_keys dst src h) (non_nil srcs) h.
Proof.
  induction srcs as [|[l|] srcs IH]; intros h; simpl; [done | apply IH |].
  rewrite merge_one_nil. apply IH.
Qed.

Lemma copyAndMergeLabels_run srcs (h : gmap loc (gmap string string)) :
  (∀ l, Some l ∈ srcs → l ∈ dom h) →
  copyAndMergeLabels range_keys srcs h
  = (fresh (dom h),
     <[fresh (dom h) := union_left_to_right (deref h <$> srcs)]> h).
Proof.
  intros Hin. unfold copyAndMergeLabels, make. f_equal.
  apply merge_all_spec; [done | apply is_fresh | done].
Qed.

Lemma copyLabels_run (src : mapref) (h : gmap loc (gmap string string)) :
  (∀ l, src = Some l → l ∈ dom h) →
  copyLabels range_keys src h
  = (fresh (dom h), <[fresh (dom h) := deref h src]> h).
Proof.
  intros Hin. unfold copyLabels, make, maps_Copy.
  set (dst := fresh (dom h)).
  assert (Hne : src ≠ Some dst).
  { intros ->. by apply (is_fresh (dom h)), Hin. }
  assert (Hsrc : deref (<[dst:=∅]> h) src = deref h src).
  { unfold deref. destruct src as [l|]; [|done].
    rewrite lookup_insert_ne; [done | congruence]. }
  f_equal. rewrite (fold_store dst src _ _ ∅);
    [| by rewrite lookup_insert_eq | done].
  rewrite Hsrc, copy_keys_all by done.
  by rewrite insert_insert_eq, (right_id_L ∅ (∪)).
Qed.

Lemma union_left_to_right_app (l1 l2 : list (gmap string string)) :
  union_left_to_right (l1 ++ l2)
  = union_left_to_right l2 ∪ union_left_to_right l1.
Proof.
  induction l2 as [|m l2 IH] using rev_ind.
  - rewrite app_nil_r. unfold union_left_to_right at 2. simpl.
    by rewrite (left_id_L ∅ (∪)).
  - rewrite app_assoc, !union_left_to_right_snoc, IH.
    by rewrite (assoc_L (∪)).
Qed.




End SharedMore.

(** X1.  Whatever order [range] visits the keys in, [copyLabels] of a mapping
    of the heap (or of nil) returns a cell that did not exist before, never
    nil, whose content is the content of the source, and leaves every
    existing map, the source included, as it was. *)
Theorem copyLabels_copies
    (range_keys : gmap string string → list string)
    (src : Shared.mapref) (h : gmap Shared.loc (gmap string string)) :
  (∀ m, range_keys m ≡ₚ elements (dom m)) →
  (∀ l, src = Some l → l ∈ dom h) →
  ∃ dst h',
    SharedCopy.copyLabels range_keys src h = (dst, h') ∧
    (dst ∉ dom h) ∧
    Some dst ≠ src ∧
    h' !! dst = Some (Shared.deref h src) ∧
    (∀ l, l ∈ dom h → h' !! l = h !! l).
Proof.
  intros Hperm Hin. eexists _, _.
  split; [by apply copyLabels_run|].
  assert (Hfresh : fresh (dom h) ∉ dom h) by apply is_fresh.
  split_and!.
  - done.
  - intros Heq. by apply Hfresh, Hin.
  - by rewrite lookup_insert_eq.
  - intros l Hl. rewrite lookup_insert_ne; [done|]. by intros <-.
Qed.

Lemma copyLabels_copies_witness :
  ∃ dst h',
    SharedCopy.copyLabels Shared.range_in_map_order (Some 1%positive)
      Examples.labels_heap = (dst, h') ∧
    h' !! dst = Some Examples.labels_job.
Proof.
  destruct (copyLabels_copies Shared.range_in_map_order (Some 1%positive)
              Examples.labels_heap)
    as (dst & h' & Hrun & _ & _ & Hcopy & _).
  - apply range_in_map_order_perm.
  - intros l [= <-]. apply elem_of_dom. by eexists.
  - exists dst, h'. split; [exact Hrun|]. rewrite Hcopy. reflexivity.
Defined.

(** X2.  The copy and its source are independent afterwards: an assignment
    [dst[key] = v] to the copy leaves the source as it was, and an assignment
    to the source leaves the copy as it was. *)
Theorem copyLabels_independent
    (range_keys : gmap string string → list string)
    (src : Shared.mapref) (h : gmap Shared.loc (gmap string string)) :
  (∀ m, range_keys m ≡ₚ elements (dom m)) →
  (∀ l, src = Some l → l ∈ dom h) →
  ∃ dst h',
    SharedCopy.copyLabels range_keys src h = (dst, h') ∧
    (∀ key v, Shared.deref (Shared.store dst key v h') src
              = Shared.deref h src) ∧
    (∀ l key v, src = Some l →
       Shared.deref (Shared.store l key v h') (Some dst)
       = Shared.deref h src ∧
       Shared.deref (Shared.store l key v h') src
       = <[key := v]> (Shared.deref h src)).
Proof.
  intros Hperm Hin. eexists _, _.
  split; [by apply copyLabels_run|].
  assert (Hfresh : fresh (dom h) ∉ dom h) by apply is_fresh.
  split.
  - intros key v. destruct src as [l|]; [|done].
    assert (l ≠ fresh (dom h)) by (intros ->; by apply Hfresh, Hin).
    unfold Shared.deref, Shared.store.
    by rewrite !lookup_insert_ne by done.
  - intros l key v ->.
    assert (l ≠ fresh (dom h)) by (intros ->; by apply Hfresh, Hin).
    unfold Shared.deref, Shared.store. split.
    + rewrite lookup_insert_ne by done. by rewrite lookup_insert_eq.
    + rewrite lookup_insert_eq. simpl. by rewrite lookup_insert_ne by done.
Qed.

Lemma copyLabels_independent_witness :
  ∃ dst h',
    SharedCopy.copyLabels Shared.range_in_map_order (Some 1%positive)
      Examples.labels_heap = (dst, h') ∧
    Shared.deref (Shared.store dst "job" "web" h') (Some 1%positive)
    !! "job" = Some "api".
Proof.
  destruct (copyLabels_independent Shared.range_in_map_order
              (Some 1%positive) Examples.labels_heap)
    as (dst & h' & Hrun & Hdst & _).
  - apply range_in_map_order_perm.
  - intros l [= <-]. apply elem_of_dom. by eexists.
  - exists dst, h'. split; [exact Hrun|]. rewrite Hdst. reflexivity.
Defined.

(** X3.  Merging a single mapping is copying it: [copyAndMergeLabels(src)]
    and [copyLabels(src)] return the same cell and leave the same heap,
    whatever the iteration order. *)
Theorem copyAndMergeLabels_single
    (range_keys : gmap string string → list string)
    (src : Shared.mapref) (h : gmap Shared.loc (gmap string string)) :
  Shared.copyAndMergeLabels range_keys [src] h
  = SharedCopy.copyLabels range_keys src h.
Proof. reflexivity. Qed.

(** X4.  Nil mappings among the arguments are ignored: the call returns what
    it returns without them.  With no argument, or only nil ones, the result
    is a new empty mapping, not nil. *)
Theorem copyAndMergeLabels_ignores_nil
    (range_keys : gmap string string → list string)
    (srcs : list Shared.mapref) (h : gmap Shared.loc (gmap string string)) :
  (∀ m, range_keys m ≡ₚ elements (dom m)) →
  Shared.copyAndMergeLabels range_keys srcs h
  = Shared.copyAndMergeLabels range_keys (SharedCopy.non_nil srcs) h ∧
  (SharedCopy.non_nil srcs = [] →
   ∃ dst, Shared.copyAndMergeLabels range_keys srcs h = (dst, <[dst := ∅]> h) ∧
          dst ∉ dom h).
Proof.
  intros Hperm.
  assert (Heq : Shared.copyAndMergeLabels range_keys srcs h
          = Shared.copyAndMergeLabels range_keys (SharedCopy.non_nil srcs) h).
  { unfold Shared.copyAndMergeLabels, Shared.make. f_equal.
    by apply merge_non_nil. }
  split; [done|]. intros Hnil. rewrite Heq, Hnil.
  eexists. split; [reflexivity | apply is_fresh].
Qed.

Lemma copyAndMergeLabels_ignores_nil_witness :
  Shared.copyAndMergeLabels Shared.range_in_map_order
    [None; Some 2%positive; None] Examples.labels_heap
  = Shared.copyAndMergeLabels Shared.range_in_map_order
      [Some 2%positive] Examples.labels_heap.
Proof.
  apply (copyAndMergeLabels_ignores_nil Shared.range_in_map_order
           [None; Some 2%positive; None] Examples.labels_heap).
  apply range_in_map_order_perm.
Defined.

(** X5.  Merging [srcs1] followed by [srcs2] gives the merge of [srcs2] laid
    over the merge of [srcs1]: every key of the second merge keeps its value
    there, every other key has the value of the first merge. *)
Theorem copyAndMergeLabels_app
    (range_keys : gmap string string → list string)
    (srcs1 srcs2 : list Shared.mapref)
    (h : gmap Shared.loc (gmap string string)) :
  (∀ m, range_keys m ≡ₚ elements (dom m)) →
  (∀ l, Some l ∈ srcs1 ++ srcs2 → l ∈ dom h) →
  ∃ d1 h1 d2 h2 d h',
    Shared.copyAndMergeLabels range_keys srcs1 h = (d1, h1) ∧
    Shared.copyAndMergeLabels range_keys srcs2 h = (d2, h2) ∧
    Shared.copyAndMergeLabels range_keys (srcs1 ++ srcs2) h = (d, h') ∧
    Shared.deref h' (Some d)
    = Shared.deref h2 (Some d2) ∪ Shared.deref h1 (Some d1).
Proof.
  intros Hperm Hin. eexists _, _, _, _, _, _. split_and!.
  - apply copyAndMergeLabels_run; [done|].
    intros l Hl. apply Hin, elem_of_app. by left.
  - apply copyAndMergeLabels_run; [done|].
    intros l Hl. apply Hin, elem_of_app. by right.
  - by apply copyAndMergeLabels_run.
  - unfold Shared.deref. rewrite !lookup_insert_eq. simpl.
    by rewrite fmap_app, union_left_to_right_app.
Qed.

Lemma copyAndMergeLabels_app_witness :
  ∃ d h',
    Shared.copyAndMergeLabels Shared.range_in_map_order
      ([Some 1%positive] ++ [Some 2%positive]) Examples.labels_heap
    = (d, h') ∧
    Shared.deref h' (Some d) = Examples.labels_env ∪ Examples.labels_job.
Proof.
  destruct (copyAndMergeLabels_app Shared.range_in_map_order
              [Some 1%positive] [Some 2%positive] Examples.labels_heap)
    as (d1 & h1 & d2 & h2 & d & h' & H1 & H2 & H12 & Hcontent).
  - apply range_in_map_order_perm.
  - intros l Hl. apply elem_of_dom.
    repeat (apply elem_of_cons in Hl as [Hl|Hl]; [simplify_eq; by eexists|]).
    by apply elem_of_nil in Hl.
  - exists d, h'. split; [exact H12|]. rewrite Hcontent.
    vm_compute in H1. vm_compute in H2.
    injection H1 as <- <-. injection H2 as <- <-.
    vm_compute. reflexivity.
Defined.



(* ===================================================================== *)
(** ** Levels: properties *)
(* ===================================================================== *)

Section LevelFacts.
Import Exchanger Client.

Lemma Level_String_cases l :
  (l = 0 ∧ Level_String l = "DEBUG") ∨ (l = 1 ∧ Level_String l = "INFO") ∨
  (l = 2 ∧ Level_String l = "WARN") ∨ (l = 3 ∧ Level_String l = "ERROR") ∨
  (l = 4 ∧ Level_String l = "FATAL") ∨ (l = 5 ∧ Level_String l = "PANIC") ∨
  (¬ (0 ≤ l ≤ 5) ∧ Level_String l = "unknown").
Proof.
  unfold Level_String, Debug, Info, Warn, Error, Fatal, Panic.
  destruct (Z.eqb_spec l 0) as [->|?]; [by left|].
  destruct (Z.eqb_spec l 1) as [->|?]; [by right; left|].
  destruct (Z.eqb_spec l 2) as [->|?]; [by do 2 right; left|].
  destruct (Z.eqb_spec l 3) as [->|?]; [by do 3 right; left|].
  destruct (Z.eqb_spec l 4) as [->|?]; [by do 4 right; left|].
  destruct (Z.eqb_spec l 5) as [->|?]; [by do 5 right; left|].
  do 6 right. split; [lia | done].
Qed.

End LevelFacts.

(** X7.  [Level.String] names the six levels 0 to 5 with six different
    names, and gives ["unknown"] exactly for the values that are none of
    them, so that a name other than ["unknown"] determines the level. *)
Theorem Level_String_injective (l1 l2 : Exchanger.Level) :
  Client.Level_String l1 = Client.Level_String l2 →
  Client.Level_String l1 ≠ "unknown" →
  l1 = l2 ∧ 0 ≤ l1 ≤ 5.
Proof.
  intros Heq Hknown.
  destruct (Level_String_cases l1) as [H1|[H1|[H1|[H1|[H1|[H1|H1]]]]]];
    destruct H1 as [H1 Hs1]; rewrite Hs1 in *; [..|done];
    (destruct (Level_String_cases l2) as [H2|[H2|[H2|[H2|[H2|[H2|H2]]]]]];
     destruct H2 as [H2 Hs2]; rewrite Hs2 in Heq; try discriminate Heq;
     subst; split; [reflexivity | lia]).
Qed.

Lemma Level_String_injective_witness :
  Client.Warn = 2 ∧ 0 ≤ Client.Warn ≤ 5.
Proof.
  apply (Level_String_injective Client.Warn 2); [reflexivity | discriminate].
Defined.

(** X8.  [Level.String] returns ["unknown"] exactly for the levels outside
    0..5, in particular for every [uint8] from 6 to 255. *)
Theorem Level_String_unknown (l : Exchanger.Level) :
  (Client.Level_String l = "unknown" ↔ ¬ (0 ≤ l ≤ 5)) ∧
  (Client.is_uint8 l → 6 ≤ l → Client.Level_String l = "unknown").
Proof.
  assert (Hiff : Client.Level_String l = "unknown" ↔ ¬ (0 ≤ l ≤ 5)).
  { destruct (Level_String_cases l) as [H|[H|[H|[H|[H|[H|H]]]]]];
      destruct H as [H Hs]; rewrite Hs; split; try done; try discriminate;
      intros Hout; lia. }
  split; [done|]. intros _ Hge. apply Hiff. lia.
Qed.

(* ===================================================================== *)
(** ** Stream transformer: further properties *)
(* ===================================================================== *)

Section TransformMore.
Import Go Exchanger Spec Wire.

Lemma fold_append_entry_wire entries : ∀ values,
  fold_left append_entry (List.map (option_map wire_entry) entries) values
  = fold_left append_entry entries values.
Proof.
  induction entries as [|[e|] entries IH]; intros values; simpl; [done|..];
    apply IH.
Qed.

Lemma append_stream_wire out s :
  append_stream out (option_map wire_stream s) = append_stream out s.
Proof.
  destruct s as [s|]; [|done]. simpl.
  rewrite length_map, fold_append_entry_wire. done.
Qed.

Lemma fold_append_stream_wire streams : ∀ out,
  fold_left append_stream (List.map (option_map wire_stream) streams) out
  = fold_left append_stream streams out.
Proof.
  induction streams as [|s streams IH]; intros out; simpl; [done|].
  by rewrite append_stream_wire, IH.
Qed.

Lemma retained_streams_length streams :
  (List.length (retained_streams streams) ≤ List.length streams)%nat.
Proof.
  unfold retained_streams.
  etrans; [apply List.filter_length_le|].
  induction streams as [|[s|] streams IH]; [done|..].
  - change (omap id (Some s :: streams)) with (s :: omap id streams).
    simpl. lia.
  - change (omap id (None :: streams)) with (omap id streams).
    simpl. lia.
Qed.

Lemma retained_entries_length s :
  (List.length (retained_entries s) ≤ List.length (Entries s))%nat.
Proof.
  unfold retained_entries.
  induction (Entries s) as [|[e|] entries IH]; [done|..].
  - change (omap id (Some e :: entries)) with (e :: omap id entries).
    simpl. lia.
  - change (omap id (None :: entries)) with (omap id entries).
    simpl. lia.
Qed.

Lemma retained_streams_have_entries streams :
  Forall (λ s, (1 ≤ List.length (Entries s))%nat) (retained_streams streams).
Proof.
  apply Forall_forall. intros s Hs.
  apply list_elem_of_In, List.filter_In in Hs as [_ Hs].
  unfold has_entries in Hs. destruct (Entries s); [done | simpl; lia].
Qed.

End TransformMore.

(** X9.  The transformer works stream by stream: the streams it gives for a
    concatenation are those it gives for the first part followed by those it
    gives for the second. *)
Theorem transform_app rcv (streams1 streams2 : list (option Exchanger.LogStream)) :
  Wire.Streams_of
    (Exchanger.transformLogStreamsToDTO rcv (Some (streams1 ++ streams2)))
  = Wire.Streams_of (Exchanger.transformLogStreamsToDTO rcv (Some streams1))
    ++ Wire.Streams_of (Exchanger.transformLogStreamsToDTO rcv (Some streams2)).
Proof.
  rewrite !transform_streams. simpl.
  by rewrite retained_streams_app, fmap_app.
Qed.

(** X10.  Only the stream labels, the timestamps and the log lines reach the
    request: the result is the same when the level of every stream and the
    labels and level of every entry are reset, and it does not depend on the
    exchanger. *)
Theorem transform_ignores_levels_and_entry_labels rcv rcv'
    (streams : list (option Exchanger.LogStream)) :
  Exchanger.transformLogStreamsToDTO rcv
    (Some (List.map (option_map Wire.wire_stream) streams))
  = Exchanger.transformLogStreamsToDTO rcv' (Some streams).
Proof.
  unfold Exchanger.transformLogStreamsToDTO.
  by rewrite fold_append_stream_wire.
Qed.

(** X11.  The labels of a stream are handed over by reference, not copied:
    the [Stream] of each output stream is the very map of the input stream,
    so an assignment to that map made afterwards is seen through the
    request. *)
Theorem transform_shares_labels rcv
    (streams : list (option Exchanger.LogStream)) :
  ∃ out,
    Exchanger.transformLogStreamsToDTO rcv (Some streams) = Some out ∧
    Forall2 (λ s dto,
               Exchanger.Stream dto = Exchanger.Labels s ∧
               ∀ (h : gmap Shared.loc (gmap string string)) l key v,
                 Exchanger.Labels s = Some l →
                 Shared.deref (Shared.store l key v h) (Exchanger.Stream dto)
                 !! key = Some v)
            (Spec.retained_streams streams) (Exchanger.Streams out).
Proof.
  eexists. split; [apply transform_streams|]. simpl.
  apply Forall2_fmap_r, Forall_Forall2_diag, Forall_forall.
  intros s _. split; [done|]. simpl. intros h l key v ->.
  unfold Shared.deref, Shared.store.
  by rewrite lookup_insert_eq; simpl; rewrite lookup_insert_eq.
Qed.

(** X12.  The capacities the transformer reserves are never exceeded: the
    output has at most as many streams as the input has, each output stream
    comes from an input stream with at least one entry and has at most as
    many value pairs as that stream has entries. *)
Theorem transform_within_capacity rcv
    (streams : list (option Exchanger.LogStream)) :
  ∃ out,
    Exchanger.transformLogStreamsToDTO rcv (Some streams) = Some out ∧
    (List.length (Exchanger.Streams out) ≤ List.length streams)%nat ∧
    Forall2 (λ s dto,
               (1 ≤ List.length (Exchanger.Entries s))%nat ∧
               (List.length (Exchanger.Values dto)
                ≤ List.length (Exchanger.Entries s))%nat)
            (Spec.retained_streams streams) (Exchanger.Streams out).
Proof.
  eexists. split; [apply transform_streams|]. simpl. split.
  - rewrite length_fmap. apply retained_streams_length.
  - apply Forall2_fmap_r, Forall_Forall2_diag.
    eapply Forall_impl; [apply retained_streams_have_entries|].
    intros s Hs. split; [done|]. simpl. rewrite length_fmap.
    apply retained_entries_length.
Qed.

(** X13.  Within the [int64] range of nanoseconds, different instants get
    different timestamp strings: two entries whose value pairs have the same
    first component are at the same nanosecond. *)
Theorem value_pair_timestamp_injective (e1 e2 : Exchanger.LogEntry) :
  Spec.fits_int64 (Spec.nanos_since_epoch (Exchanger.Timestamp e1)) →
  Spec.fits_int64 (Spec.nanos_since_epoch (Exchanger.Timestamp e2)) →
  (Spec.value_pair e1).1 = (Spec.value_pair e2).1 →
  Spec.nanos_since_epoch (Exchanger.Timestamp e1)
  = Spec.nanos_since_epoch (Exchanger.Timestamp e2).
Proof.
  intros Hfit1 Hfit2 Heq.
  destruct (value_pair_in_range e1) as [Hd1 _].
  destruct (value_pair_in_range e2) as [Hd2 _].
  destruct (Hd1 Hfit1) as [Hv1 _]. destruct (Hd2 Hfit2) as [Hv2 _].
  rewrite Heq in Hv1. congruence.
Qed.

Lemma value_pair_timestamp_injective_witness :
  Spec.nanos_since_epoch (Exchanger.Timestamp MoreExamples.entry_a)
  = Spec.nanos_since_epoch (Exchanger.Timestamp MoreExamples.entry_c).
Proof.
  apply value_pair_timestamp_injective.
  - split; [vm_compute; discriminate | vm_compute; reflexivity].
  - split; [vm_compute; discriminate | vm_compute; reflexivity].
  - reflexivity.
Defined.

(* ===================================================================== *)
(** ** Push and Ping: further properties *)
(* ===================================================================== *)

Section ExchangeMore.
Import Go Exchanger Spec Wire.

Lemma Push_encode_body env rcv streams :
  (Push_encode env rcv streams).1 = expected_body env rcv streams.
Proof.
  unfold Push_encode, expected_body.
  destruct (json_Encode env (transformLogStreamsToDTO rcv streams))
    as [written [e|]]; reflexivity.
Qed.

(** The run of [Push], path by path. *)
Lemma Push_cases env rcv streams :
  (∃ err, http_NewRequest env "POST" (push_url rcv) = Some err ∧
          Push env rcv streams
          = ([], Some ("failed to create request: " ++ err)%string))
  ∨ (∃ req, http_NewRequest env "POST" (push_url rcv) = None ∧
            (Push env rcv streams).1 = [req] ∧
            Method req = "POST" ∧ URL req = push_url rcv ∧
            Body req = Some (expected_body env rcv streams) ∧
            Header req !! "Content-Type" = Some ["application/json"] ∧
            Header req !! "Content-Encoding"
            = (if useGzipCompression rcv then Some ["gzip"] else None) ∧
            dom (Header req)
            ⊆ ({["Content-Type"; "Content-Encoding"; "Authorization"]}
                 : gset string) ∧
            ∀ err, restClient_Do env req = inr err →
                   (Push env rcv streams).2
                   = Some ("failed to send push message: " ++ err)%string).
Proof.
  unfold Push. rewrite <- Push_encode_body.
  destruct (Push_encode env rcv streams) as [buf encode_err].
  fold (push_url rcv).
  destruct (http_NewRequest env "POST" (push_url rcv)) as [err|];
    [left; by eexists|].
  right.
  match goal with
  | |- context [restClient_Do env ?r] => set (sent := r)
  end.
  exists sent.
  assert (Hshape : Method sent = "POST" ∧ URL sent = push_url rcv ∧
            Body sent = Some buf ∧
            Header sent !! "Content-Type" = Some ["application/json"] ∧
            Header sent !! "Content-Encoding"
            = (if useGzipCompression rcv then Some ["gzip"] else None) ∧
            dom (Header sent)
            ⊆ ({["Content-Type"; "Content-Encoding"; "Authorization"]}
                 : gset string)).
  { subst sent.
    destruct (nonempty (username rcv) && nonempty (password rcv));
      destruct (useGzipCompression rcv); simpl;
      (split_and!; [done | done | done | by simplify_map_eq
                    | by simplify_map_eq |]);
      unfold Header_Set, Header_Add; rewrite ?dom_insert_L, dom_empty_L;
      apply elem_of_subseteq; intros k;
      rewrite !elem_of_union, !elem_of_singleton, elem_of_empty; tauto. }
  clearbody sent. destruct Hshape as (? & ? & ? & ? & ? & ?).
  split; [done|].
  destruct (restClient_Do env sent) as [resp|err] eqn:Hdo.
  - destruct (negb (isSuccessHTTPCode rcv (StatusCode resp)));
      [destruct (ReadAll (RespBody resp))|]; simpl;
      (split_and!; [done..|]); by intros err.
  - simpl. split_and!; [done..|]. by intros err' [= ->].
Qed.

End ExchangeMore.

(** X14.  The request [Push] hands to the transport is a POST to
    [<lokiAddress>/loki/api/v1/push] with [Content-Type: application/json];
    it carries [Content-Encoding: gzip] exactly when compression is on, and
    its body is then what the gzip writer made of the encoder's bytes, and
    the encoder's bytes themselves otherwise.  It has no header besides
    these two and [Authorization]. *)
Theorem Push_request_shape env rcv streams req :
  (Exchanger.Push env rcv streams).1 = [req] →
  Go.Method req = "POST" ∧
  Go.URL req = (Exchanger.lokiAddress rcv ++ "/loki/api/v1/push")%string ∧
  Go.Header req !! "Content-Type" = Some ["application/json"] ∧
  (Go.Header req !! "Content-Encoding" = Some ["gzip"] ↔
   Exchanger.useGzipCompression rcv = true) ∧
  (Exchanger.useGzipCompression rcv = false →
   Go.Header req !! "Content-Encoding" = None ∧
   Go.Body req
   = Some (Exchanger.json_Encode env
             (Exchanger.transformLogStreamsToDTO rcv streams)).1) ∧
  (Exchanger.useGzipCompression rcv = true →
   Go.Body req
   = Some (Exchanger.gzip_Writer env
             (Exchanger.json_Encode env
                (Exchanger.transformLogStreamsToDTO rcv streams)).1).1) ∧
  dom (Go.Header req)
  ⊆ ({["Content-Type"; "Content-Encoding"; "Authorization"]} : gset string).
Proof.
  intros Hsent.
  destruct (Push_cases env rcv streams)
    as [(err & _ & Hp)|(req' & _ & Hreq & Hm & Hu & Hb & Hct & Hce & Hdom & _)].
  - rewrite Hp in Hsent. discriminate Hsent.
  - rewrite Hreq in Hsent. injection Hsent as ->.
    unfold Wire.expected_body in Hb. rewrite Hce, Hb.
    destruct (Exchanger.useGzipCompression rcv); split_and!; try done.
Qed.

Lemma Push_request_shape_witness :
  ∃ req,
    (Exchanger.Push MoreExamples.env_gzip MoreExamples.gzip_exchanger
       (Some [])).1 = [req] ∧
    Go.Header req !! "Content-Encoding" = Some ["gzip"] ∧
    Go.Body req = Some (list_byte_of_string "gz:{}").
Proof.
  eexists. split; [vm_compute; reflexivity|].
  edestruct (Push_request_shape MoreExamples.env_gzip
               MoreExamples.gzip_exchanger (Some []))
    as (_ & _ & _ & Hce & _ & Hbody & _).
  - vm_compute. reflexivity.
  - split; [by apply Hce | by rewrite Hbody].
Defined.


(** X16.  [Push] does not stop at a nil stream sequence: once the request
    could be built, it sends one request all the same, whose body is what the
    encoder (and the gzip writer, when compression is on) made of the nil
    request. *)
Theorem Push_nil_streams_still_sent env rcv :
  Exchanger.http_NewRequest env "POST"
    (Exchanger.lokiAddress rcv ++ "/loki/api/v1/push")%string = None →
  ∃ req,
    (Exchanger.Push env rcv None).1 = [req] ∧
    Go.Body req
    = Some (if Exchanger.useGzipCompression rcv
            then (Exchanger.gzip_Writer env
                    (Exchanger.json_Encode env None).1).1
            else (Exchanger.json_Encode env None).1).
Proof.
  intros Hnew.
  destruct (Push_cases env rcv None)
    as [(err & Hnew' & _)|(req & _ & Hreq & _ & _ & Hb & _)].
  - unfold Wire.push_url in Hnew'. congruence.
  - exists req. split; [done|]. by rewrite Hb.
Qed.

Lemma Push_nil_streams_still_sent_witness :
  ∃ req,
    (Exchanger.Push MoreExamples.env_gzip MoreExamples.gzip_exchanger None).1
    = [req] ∧
    Go.Body req = Some (list_byte_of_string "gz:null").
Proof.
  destruct (Push_nil_streams_still_sent MoreExamples.env_gzip
              MoreExamples.gzip_exchanger eq_refl) as (req & Hsent & Hbody).
  exists req. split; [exact Hsent | exact Hbody].
Defined.


(** X18.  [Ping] looks at the address only: two exchangers with the same
    address get the same result, so that neither [SetBasicAuth] nor the
    compression flag has any effect on [Ping]. *)
Theorem Ping_depends_on_address_only env rcv1 rcv2 :
  Exchanger.lokiAddress rcv1 = Exchanger.lokiAddress rcv2 →
  Exchanger.Ping env rcv1 = Exchanger.Ping env rcv2 ∧
  (∀ u p, Exchanger.Ping env (Exchanger.SetBasicAuth u p rcv1)
          = Exchanger.Ping env rcv2).
Proof.
  intros Haddr.
  assert (Heq : ∀ r, Exchanger.lokiAddress r = Exchanger.lokiAddress rcv2 →
                     Exchanger.Ping env r = Exchanger.Ping env rcv2).
  { intros r Hr. unfold Exchanger.Ping, Exchanger.isSuccessHTTPCode.
    by rewrite Hr. }
  split; [by apply Heq|]. intros u p. by apply Heq.
Qed.

Lemma Ping_depends_on_address_only_witness :
  Exchanger.Ping (Examples.env_status 200 Go.EOF)
    (Exchanger.SetBasicAuth "u" "p" MoreExamples.gzip_exchanger)
  = Exchanger.Ping (Examples.env_status 200 Go.EOF) Examples.exchanger.
Proof.
  apply (Ping_depends_on_address_only (Examples.env_status 200 Go.EOF)
           MoreExamples.gzip_exchanger Examples.exchanger eq_refl).
Defined.



(** X20.  What [Push] sends and returns does not depend on the level of the
    streams nor on the labels and level of the entries: resetting them in
    the argument changes neither the requests handed to the transport nor
    the returned error. *)
Theorem Push_ignores_levels_and_entry_labels env rcv
    (streams : list (option Exchanger.LogStream)) :
  Exchanger.Push env rcv
    (Some (List.map (option_map Wire.wire_stream) streams))
  = Exchanger.Push env rcv (Some streams).
Proof.
  unfold Exchanger.Push, Exchanger.Push_encode,
    Exchanger.transformLogStreamsToDTO.
  by rewrite fold_append_stream_wire.
Qed.
